(** * baseError: a structured error value and its construction protocol

    A shallow embedding of [baseError.go] (package [baseError]) and the
    properties of its option merge, constructors, rendering, stack capture
    and classification predicates.

    Go values are modelled as follows.
    - [*Error] is a pointer: [None] is the nil pointer, [Some l] addresses
      a cell of the store.  Mutators and [ApplyOption] update the cell in
      place and hand back the same pointer, as the source does.
    - [error] is an interface value: the nil interface, a [*Error] of this
      package (possibly a nil pointer inside a non-nil interface), or a
      value of some other dynamic type, known by the name [reflect] prints
      for it and by the text its [Error()] method yields.
    - [int] and [uintptr] are [Z]; slices are lists (capacity and the
      sharing of backing arrays are not represented).
    - A panic is an explicit outcome, [Panic], of the store monad [M].
    - [fmt.Sprintf] on caller-supplied arguments and the [runtime] call
      stack belong to the Go standard library; they are parameters. *)

From stdpp Require Import base strings list pretty.
From Stdlib Require Import Ascii ZArith Lia.

Open Scope Z_scope.

(** ** The formatting collaborator *)

(** [any] stands for Go's [any]; [Sprintf] for [fmt.Sprintf]. *)
Class Fmt := {
  any : Type;
  Sprintf : string → list any → string
}.

(** A reference formatter for the verbs [%d], [%s], [%v] and [%%] (no
    flags, no width) over integer and string operands, with the inline
    diagnostics [fmt] prints for a wrong operand, a missing operand and
    surplus operands.  It instantiates [Fmt] in the examples. *)
Inductive goval :=
| VInt (n : Z)
| VStr (s : string).

Definition goval_type (v : goval) : string :=
  match v with VInt _ => "int" | VStr _ => "string" end.

Definition goval_default (v : goval) : string :=
  match v with VInt n => pretty n | VStr s => s end.

Definition bad_verb (c : ascii) (v : goval) : string :=
  "%!" +:+ String c ("(" +:+ goval_type v +:+ "=" +:+ goval_default v +:+ ")").

Definition print_verb (c : ascii) (v : goval) : string :=
  match v with
  | VInt n =>
      if bool_decide (c = "d"%char) || bool_decide (c = "v"%char)
      then pretty n else bad_verb c v
  | VStr s =>
      if bool_decide (c = "s"%char) || bool_decide (c = "v"%char)
      then s else bad_verb c v
  end.

Fixpoint extra_args (vs : list goval) : string :=
  match vs with
  | [] => ""
  | [v] => goval_type v +:+ "=" +:+ goval_default v
  | v :: vs' => goval_type v +:+ "=" +:+ goval_default v +:+ ", " +:+ extra_args vs'
  end.

Definition surplus (vs : list goval) : string :=
  match vs with
  | [] => ""
  | _ => "%!(EXTRA " +:+ extra_args vs +:+ ")"
  end.

Fixpoint doPrintf (format : string) (vs : list goval) : string :=
  match format with
  | EmptyString => surplus vs
  | String c rest =>
      if bool_decide (c = "%"%char) then
        match rest with
        | EmptyString => "%!(NOVERB)" +:+ surplus vs
        | String v rest' =>
            if bool_decide (v = "%"%char) then "%" +:+ doPrintf rest' vs
            else
              match vs with
              | [] => "%!" +:+ String v "(MISSING)" +:+ doPrintf rest' []
              | x :: vs' => print_verb v x +:+ doPrintf rest' vs'
              end
        end
      else String c (doPrintf rest vs)
  end.

Definition goFmt : Fmt := {| any := goval; Sprintf := doPrintf |}.

(** ** Panics and the store monad *)

Inductive panic :=
| NilDereference        (* invalid memory address or nil pointer dereference *)
| InterfaceConversion   (* a failed single-value type assertion *)
| MakeSliceLen          (* makeslice: len out of range *)
| InvalidAddress.       (* an address outside the store; no Go pointer is one *)

Inductive result (A : Type) :=
| Ok (a : A)
| Panic (p : panic).
Arguments Ok {A} a.
Arguments Panic {A} p.

Abbreviation loc := nat.
Abbreviation uintptr := Z.

(** [type stack []uintptr] *)
Definition stack := list uintptr.

(** The interface type [error]. *)
Inductive error :=
| nil_error
| ptr_error (p : option loc)
| foreign_error (tyname text : string).

Global Instance error_eq_dec : EqDecision error.
Proof. solve_decision. Defined.

(** [type Error struct]; the embedded [*stack] is [stack_ptr]. *)
Record Error := mkError {
  Code : string;
  Msg : string;
  System : bool;
  Chain : list string;
  cause : error;
  stack_ptr : option stack
}.

Abbreviation heap := (list Error).

Definition M (A : Type) : Type := heap → result (A * heap).

Global Instance M_ret : MRet M := λ A a h, Ok (a, h).
Global Instance M_bind : MBind M := λ A B f m h,
  match m h with
  | Ok (a, h') => f a h'
  | Panic p => Panic p
  end.

Definition throw {A} (p : panic) : M A := λ _, Panic p.

(** [if c { body }] *)
Definition when (c : bool) (body : M ()) : M () :=
  if c then body else mret ().

(** [&Error{...}] *)
Definition alloc (e : Error) : M (option loc) :=
  λ h, Ok (Some (length h), h ++ [e]).

(** Reading through a [*Error]. *)
Definition read (b : option loc) : M Error := λ h,
  match b with
  | None => Panic NilDereference
  | Some l =>
      match h !! l with
      | Some e => Ok (e, h)
      | None => Panic InvalidAddress
      end
  end.

(** Assigning to a field through a [*Error]. *)
Definition modify (b : option loc) (f : Error → Error) : M () := λ h,
  match b with
  | None => Panic NilDereference
  | Some l =>
      match h !! l with
      | Some e => Ok ((), <[l := f e]> h)
      | None => Panic InvalidAddress
      end
  end.

Definition set_Code (v : string) (e : Error) : Error :=
  mkError v (Msg e) (System e) (Chain e) (cause e) (stack_ptr e).
Definition set_Msg (v : string) (e : Error) : Error :=
  mkError (Code e) v (System e) (Chain e) (cause e) (stack_ptr e).
Definition set_System (v : bool) (e : Error) : Error :=
  mkError (Code e) (Msg e) v (Chain e) (cause e) (stack_ptr e).
Definition set_Chain (v : list string) (e : Error) : Error :=
  mkError (Code e) (Msg e) (System e) v (cause e) (stack_ptr e).
Definition set_cause (v : error) (e : Error) : Error :=
  mkError (Code e) (Msg e) (System e) (Chain e) v (stack_ptr e).
Definition set_stack (v : option stack) (e : Error) : Error :=
  mkError (Code e) (Msg e) (System e) (Chain e) (cause e) v.

(** ** The call stack and [callers] *)

Record Frame := mkFrame { pc : uintptr; file : string }.

(** What [callers] sees when it runs: the package variable [sourceDir],
    the frames above it ([frames !! 0] is [callers] itself, the frame
    [runtime.Caller(0)] reports), the program counter [runtime.Callers]
    reports for itself at skip 0, and the largest length [make] grants a
    [[]uintptr]. *)
Record Runtime := mkRuntime {
  sourceDir : string;
  callersPC : uintptr;
  frames : list Frame;
  maxSliceLen : Z
}.

(** [strings.HasPrefix] and [strings.HasSuffix] *)
Definition HasPrefix (s prefix : string) : bool :=
  (String.length prefix <=? String.length s)%nat
  && String.eqb (String.substring 0 (String.length prefix) s) prefix.

Definition HasSuffix (s suffix : string) : bool :=
  (String.length suffix <=? String.length s)%nat
  && String.eqb
       (String.substring (String.length s - String.length suffix)
                  (String.length suffix) s) suffix.

(** [_, file, _, ok := runtime.Caller(i)] *)
Definition runtime_Caller (rt : Runtime) (i : Z) : string * bool :=
  if i <? 0 then ("", false)
  else match frames rt !! Z.to_nat i with
       | Some f => (file f, true)
       | None => ("", false)
       end.

(** [n := runtime.Callers(s, pcs)] with [len(pcs) = n]: skip 0 is
    [runtime.Callers] itself, skip 1 its caller. *)
Definition runtime_Callers (rt : Runtime) (s : Z) (n : Z) : list uintptr :=
  take (Z.to_nat n) (drop (Z.to_nat s) (callersPC rt :: map pc (frames rt))).

(** The test of the scan loop of [callers]. *)
Definition caller_frame (rt : Runtime) (i : Z) : bool :=
  let '(file, ok) := runtime_Caller rt i in
  ok && (negb (HasPrefix file (sourceDir rt)) || HasSuffix file "_test.go").

(** [for i := skip; i < 15; i++ { ... s = i + 1; break ... }]: [n] is the
    number of iterations left, [s] the value the variable had before. *)
Fixpoint callers_scan (rt : Runtime) (n : nat) (i s : Z) : Z :=
  match n with
  | O => s
  | S n' =>
      if caller_frame rt i then i + 1
      else callers_scan rt n' (i + 1) s
  end.

Definition callers (rt : Runtime) (skip depth : Z) : M (option stack) :=
  let s := callers_scan rt (Z.to_nat (15 - skip)) skip skip in
  if (depth <? 0) || (maxSliceLen rt <? depth) then throw MakeSliceLen
  else
    let st := runtime_Callers rt s depth in
    mret (Some st).

(** ** Options, mutators and constructors *)

Section baseError.
Context `{F : Fmt}.

(** [type ErrorOption struct]; its field [cause] is [ocause] here. *)
Record ErrorOption := mkErrorOption {
  code : string;
  msg : string;
  system : bool;
  chain : list string;
  ocause : error;
  depth : Z;
  msgArgs : list any
}.

(** [&ErrorOption{}] *)
Definition zeroErrorOption : ErrorOption :=
  mkErrorOption "" "" false [] nil_error 0 [].

(** [type Option], a function on a pointer to [ErrorOption]; [None] is
    the nil function. *)
Definition Option : Type := option (ErrorOption → ErrorOption).

Definition WithCode (c : string) : Option :=
  Some (λ opts, mkErrorOption c (msg opts) (system opts) (chain opts)
                  (ocause opts) (depth opts) (msgArgs opts)).

Definition WithMsg (m : string) : Option :=
  Some (λ opts, mkErrorOption (code opts) m (system opts) (chain opts)
                  (ocause opts) (depth opts) (msgArgs opts)).

Definition WithMsgFormat (format : string) (args : list any) : Option :=
  Some (λ opts, mkErrorOption (code opts) (Sprintf format args) (system opts)
                  (chain opts) (ocause opts) (depth opts) (msgArgs opts)).

Definition WithMsgArgs (args : list any) : Option :=
  Some (λ opts, mkErrorOption (code opts) (msg opts) (system opts) (chain opts)
                  (ocause opts) (depth opts) args).

Definition WithSystem : Option :=
  Some (λ opts, mkErrorOption (code opts) (msg opts) true (chain opts)
                  (ocause opts) (depth opts) (msgArgs opts)).

Definition WithChain (labels : list string) : Option :=
  Some (λ opts, mkErrorOption (code opts) (msg opts) (system opts)
                  (chain opts ++ labels) (ocause opts) (depth opts)
                  (msgArgs opts)).

Definition WithCause (c : error) : Option :=
  Some (λ opts, mkErrorOption (code opts) (msg opts) (system opts) (chain opts)
                  c (depth opts) (msgArgs opts)).

(** [func WithStack(depth ...int) Option] *)
Definition WithStack (depths : list Z) : Option :=
  Some (λ opts,
    let d := match depths with
             | d0 :: _ => if 0 <? d0 then d0 else 3
             | [] => 3
             end in
    mkErrorOption (code opts) (msg opts) (system opts) (chain opts)
      (ocause opts) d (msgArgs opts)).

(** The methods of [*Error]. *)
Definition Error_WithCode (b : option loc) (c : string) : M (option loc) :=
  modify b (set_Code c) ;; mret b.

Definition Error_WithMsg (b : option loc) (m : string) : M (option loc) :=
  modify b (set_Msg m) ;; mret b.

Definition Error_WithMsgArgs (b : option loc) (args : list any) : M (option loc) :=
  e ← read b ;
  modify b (set_Msg (Sprintf (Msg e) args)) ;; mret b.

Definition Error_WithMsgFormat (b : option loc) (format : string)
    (args : list any) : M (option loc) :=
  modify b (set_Msg (Sprintf format args)) ;; mret b.

Definition Error_WithSystem (b : option loc) : M (option loc) :=
  modify b (set_System true) ;; mret b.

Definition Error_WithChain (b : option loc) (labels : list string) : M (option loc) :=
  e ← read b ;
  modify b (set_Chain (Chain e ++ labels)) ;; mret b.

Definition Error_WithCause (b : option loc) (c : error) : M (option loc) :=
  modify b (set_cause c) ;; mret b.

Definition Error_WithStack (rt : Runtime) (b : option loc) (depths : list Z)
    : M (option loc) :=
  let d := match depths with
           | d0 :: _ => if 0 <? d0 then d0 else 3
           | [] => 3
           end in
  st ← callers rt 3 d ;
  modify b (set_stack st) ;; mret b.

(** [func (b *Error) Error() string]; [fmt.Sprintf("[%s] %s", c, m)] on
    two strings is the concatenation written here. *)
Definition Error_Error (b : option loc) : M string :=
  e ← read b ;
  if negb (String.eqb (Code e) "") then mret ("[" +:+ Code e +:+ "] " +:+ Msg e)
  else mret (Msg e).

Definition Error_Stack (b : option loc) : M (option stack) :=
  e ← read b ; mret (stack_ptr e).

Definition Error_Cause (b : option loc) : M error :=
  e ← read b ; mret (cause e).

Definition Error_Unwrap (b : option loc) : M error :=
  e ← read b ; mret (cause e).

(** [err.Error()] on an interface value: dispatch on the dynamic type. *)
Definition error_Error (err : error) : M string :=
  match err with
  | nil_error => throw NilDereference
  | ptr_error p => Error_Error p
  | foreign_error _ text => mret text
  end.

(** [if apply != nil { apply(errOpt) }] *)
Definition run_option (apply : Option) (errOpt : ErrorOption) : ErrorOption :=
  match apply with
  | Some f => f errOpt
  | None => errOpt
  end.

(** [for _, apply := range opts { ... }] *)
Definition apply_opts (opts : list Option) (errOpt : ErrorOption) : ErrorOption :=
  foldl (λ o apply, run_option apply o) errOpt opts.

Definition ApplyOption (rt : Runtime) (err : option loc) (opts : list Option)
    : M (option loc) :=
  if (List.length opts =? 0)%nat then mret err
  else
    let errOpt := apply_opts opts zeroErrorOption in
    when (negb (String.eqb (code errOpt) ""))
         (modify err (set_Code (code errOpt))) ;;
    when (negb (String.eqb (msg errOpt) ""))
         (modify err (set_Msg (msg errOpt))) ;;
    when (system errOpt)
         (modify err (set_System true)) ;;
    when (0 <? List.length (chain errOpt))%nat
         (e ← read err ; modify err (set_Chain (Chain e ++ chain errOpt))) ;;
    when (negb (bool_decide (ocause errOpt = nil_error)))
         (modify err (set_cause (ocause errOpt))) ;;
    when (negb (depth errOpt =? 0))
         (st ← callers rt 3 (depth errOpt) ; modify err (set_stack st)) ;;
    when (0 <? List.length (msgArgs errOpt))%nat
         (e ← read err ; modify err (set_Msg (Sprintf (Msg e) (msgArgs errOpt)))) ;;
    mret err.

Definition New (rt : Runtime) (m : string) (opts : list Option) : M (option loc) :=
  e ← alloc (mkError "" m false [] nil_error None) ;
  ApplyOption rt e opts.

Definition NewSystem (rt : Runtime) (m : string) (opts : list Option)
    : M (option loc) :=
  e ← alloc (mkError "" m true [] nil_error None) ;
  ApplyOption rt e opts.

Definition NewCode (rt : Runtime) (c m : string) (opts : list Option)
    : M (option loc) :=
  e ← alloc (mkError c m false [] nil_error None) ;
  ApplyOption rt e opts.

Definition NewSystemCode (rt : Runtime) (c m : string) (opts : list Option)
    : M (option loc) :=
  e ← alloc (mkError c m true [] nil_error None) ;
  ApplyOption rt e opts.

Definition NewWrap (rt : Runtime) (err : error) (opts : list Option)
    : M (option loc) :=
  if bool_decide (err = nil_error) then mret None
  else
    m ← error_Error err ;
    e ← alloc (mkError "" m false [] err None) ;
    ApplyOption rt e opts.

Definition NewSystemWrap (rt : Runtime) (err : error) (opts : list Option)
    : M (option loc) :=
  if bool_decide (err = nil_error) then mret None
  else
    m ← error_Error err ;
    e ← alloc (mkError "" m true [] err None) ;
    ApplyOption rt e opts.

Definition NewCodeWrap (rt : Runtime) (c : string) (err : error)
    (opts : list Option) : M (option loc) :=
  if bool_decide (err = nil_error) then mret None
  else
    m ← error_Error err ;
    e ← alloc (mkError c m false [] err None) ;
    ApplyOption rt e opts.

Definition NewSystemCodeWrap (rt : Runtime) (c : string) (err : error)
    (opts : list Option) : M (option loc) :=
  if bool_decide (err = nil_error) then mret None
  else
    m ← error_Error err ;
    e ← alloc (mkError c m true [] err None) ;
    ApplyOption rt e opts.

Definition Clone (rt : Runtime) (err : option loc) (opts : list Option)
    : M (option loc) :=
  match err with
  | None => mret None
  | Some _ =>
      src ← read err ;
      e ← alloc (mkError (Code src) (Msg src) (System src) (Chain src)
                   (cause src) None) ;
      ApplyOption rt e opts
  end.

(** [func (b *Error) Clone(opts ...Option) *Error] *)
Definition Error_Clone (rt : Runtime) (b : option loc) (opts : list Option)
    : M (option loc) :=
  Clone rt b opts.

(** ** Classification predicates *)

(** [reflect.TypeOf(err).String()]: [TypeOf] of the nil interface is the
    nil [Type], on which [String] cannot be called. *)
Definition TypeOf_String (err : error) : M string :=
  match err with
  | nil_error => throw NilDereference
  | ptr_error _ => mret "*baseError.Error"
  | foreign_error tyname _ => mret tyname
  end.

(** The type assertion of [err] to a pointer to [Error]. *)
Definition assert_Error (err : error) : M (option loc) :=
  match err with
  | ptr_error p => mret p
  | _ => throw InterfaceConversion
  end.

Definition IsBaseError (err : error) : M bool :=
  t ← TypeOf_String err ;
  mret (String.eqb t "*baseError.Error").

Definition IsSystemError (err : error) : M bool :=
  t ← TypeOf_String err ;
  if String.eqb t "*baseError.Error" then
    p ← assert_Error err ;
    e ← read p ;
    mret (System e)
  else mret false.

Definition IsNotSystemError (err : error) : M bool :=
  t ← TypeOf_String err ;
  if String.eqb t "*baseError.Error" then
    p ← assert_Error err ;
    e ← read p ;
    mret (negb (System e))
  else mret false.

End baseError.

(** ** Closed forms used in the statements *)

(** The snapshot [callers] builds when [make] grants the slice. *)
Definition capture (rt : Runtime) (skip depth : Z) : stack :=
  runtime_Callers rt (callers_scan rt (Z.to_nat (15 - skip)) skip skip) depth.

(** [ApplyOption] reaches [callers] only for a non-zero depth, and [make]
    grants lengths from 0 to [maxSliceLen]. *)
Definition stack_request_ok (rt : Runtime) (d : Z) : Prop :=
  d = 0 ∨ (0 ≤ d ∧ d ≤ maxSliceLen rt).

Section phases.
Context `{F : Fmt}.

(** The cell of [err] after the six assignments of [ApplyOption] that copy
    fields of the accumulator, in the order of the source. *)
Definition merge_fields (rt : Runtime) (errOpt : ErrorOption) (e : Error) : Error :=
  let e := if negb (String.eqb (code errOpt) "") then set_Code (code errOpt) e else e in
  let e := if negb (String.eqb (msg errOpt) "") then set_Msg (msg errOpt) e else e in
  let e := if system errOpt then set_System true e else e in
  let e := if (0 <? List.length (chain errOpt))%nat
           then set_Chain (Chain e ++ chain errOpt) e else e in
  let e := if negb (bool_decide (ocause errOpt = nil_error))
           then set_cause (ocause errOpt) e else e in
  if negb (depth errOpt =? 0)
  then set_stack (Some (capture rt 3 (depth errOpt))) e else e.

(** The cell after the last assignment, which formats the message. *)
Definition format_message (errOpt : ErrorOption) (e : Error) : Error :=
  if (0 <? List.length (msgArgs errOpt))%nat
  then set_Msg (Sprintf (Msg e) (msgArgs errOpt)) e else e.

(** The option expressions a call site can write with this package. *)
Inductive option_call :=
| CallWithCode (c : string)
| CallWithMsg (m : string)
| CallWithMsgFormat (format : string) (args : list any)
| CallWithMsgArgs (args : list any)
| CallWithSystem
| CallWithChain (labels : list string)
| CallWithCause (c : error)
| CallWithStack (depths : list Z)
| CallNil.

Definition build (c : option_call) : Option :=
  match c with
  | CallWithCode c => WithCode c
  | CallWithMsg m => WithMsg m
  | CallWithMsgFormat f a => WithMsgFormat f a
  | CallWithMsgArgs a => WithMsgArgs a
  | CallWithSystem => WithSystem
  | CallWithChain ls => WithChain ls
  | CallWithCause c => WithCause c
  | CallWithStack ds => WithStack ds
  | CallNil => None
  end.




(** What a wrapping constructor does with a present error that renders
    as [text]: it allocates the value written in its body and merges the
    options into it. *)
Definition wraps (rt : Runtime) (c : string) (sys : bool) (err : error)
    (text : string) (opts : list Option) (h : heap)
    (r : result (option loc * heap)) : Prop :=
  r = ApplyOption rt (Some (List.length h)) opts
        (h ++ [mkError c text sys [] err None])
  ∧ ∃ e',
      r = Ok (Some (List.length h), h ++ [e'])
      ∧ (opts = [] → e' = mkError c text sys [] err None)
      ∧ (msg (apply_opts opts zeroErrorOption) = "" →
         msgArgs (apply_opts opts zeroErrorOption) = [] → Msg e' = text)
      ∧ (ocause (apply_opts opts zeroErrorOption) = nil_error → cause e' = err).

End phases.

(** ** Programs over the package's API *)

Section programs.
Context `{F : Fmt}.

(** One call into the package; the value returned is dropped. *)
Inductive api_call :=
| DoApplyOption (rt : Runtime) (err : option loc) (opts : list Option)
| DoNew (rt : Runtime) (m : string) (opts : list Option)
| DoNewSystem (rt : Runtime) (m : string) (opts : list Option)
| DoNewCode (rt : Runtime) (c m : string) (opts : list Option)
| DoNewSystemCode (rt : Runtime) (c m : string) (opts : list Option)
| DoNewWrap (rt : Runtime) (err : error) (opts : list Option)
| DoNewSystemWrap (rt : Runtime) (err : error) (opts : list Option)
| DoNewCodeWrap (rt : Runtime) (c : string) (err : error) (opts : list Option)
| DoNewSystemCodeWrap (rt : Runtime) (c : string) (err : error) (opts : list Option)
| DoClone (rt : Runtime) (err : option loc) (opts : list Option)
| DoWithCode (b : option loc) (c : string)
| DoWithMsg (b : option loc) (m : string)
| DoWithMsgArgs (b : option loc) (args : list any)
| DoWithMsgFormat (b : option loc) (format : string) (args : list any)
| DoWithSystem (b : option loc)
| DoWithChain (b : option loc) (labels : list string)
| DoWithCause (b : option loc) (c : error)
| DoWithStack (rt : Runtime) (b : option loc) (depths : list Z)
| DoErrorClone (rt : Runtime) (b : option loc) (opts : list Option)
| DoError (b : option loc)
| DoStack (b : option loc)
| DoCause (b : option loc)
| DoUnwrap (b : option loc)
| DoIsBaseError (err : error)
| DoIsSystemError (err : error)
| DoIsNotSystemError (err : error).

Definition exec (c : api_call) : M () :=
  match c with
  | DoApplyOption rt err opts => ApplyOption rt err opts ;; mret ()
  | DoNew rt m opts => New rt m opts ;; mret ()
  | DoNewSystem rt m opts => NewSystem rt m opts ;; mret ()
  | DoNewCode rt c m opts => NewCode rt c m opts ;; mret ()
  | DoNewSystemCode rt c m opts => NewSystemCode rt c m opts ;; mret ()
  | DoNewWrap rt err opts => NewWrap rt err opts ;; mret ()
  | DoNewSystemWrap rt err opts => NewSystemWrap rt err opts ;; mret ()
  | DoNewCodeWrap rt c err opts => NewCodeWrap rt c err opts ;; mret ()
  | DoNewSystemCodeWrap rt c err opts => NewSystemCodeWrap rt c err opts ;; mret ()
  | DoClone rt err opts => Clone rt err opts ;; mret ()
  | DoWithCode b c => Error_WithCode b c ;; mret ()
  | DoWithMsg b m => Error_WithMsg b m ;; mret ()
  | DoWithMsgArgs b args => Error_WithMsgArgs b args ;; mret ()
  | DoWithMsgFormat b f args => Error_WithMsgFormat b f args ;; mret ()
  | DoWithSystem b => Error_WithSystem b ;; mret ()
  | DoWithChain b ls => Error_WithChain b ls ;; mret ()
  | DoWithCause b c => Error_WithCause b c ;; mret ()
  | DoWithStack rt b ds => Error_WithStack rt b ds ;; mret ()
  | DoErrorClone rt b opts => Error_Clone rt b opts ;; mret ()
  | DoError b => Error_Error b ;; mret ()
  | DoStack b => Error_Stack b ;; mret ()
  | DoCause b => Error_Cause b ;; mret ()
  | DoUnwrap b => Error_Unwrap b ;; mret ()
  | DoIsBaseError err => IsBaseError err ;; mret ()
  | DoIsSystemError err => IsSystemError err ;; mret ()
  | DoIsNotSystemError err => IsNotSystemError err ;; mret ()
  end.

(** A run of calls, one after the other; a panic ends it. *)
Fixpoint exec_all (cs : list api_call) : M () :=
  match cs with
  | [] => mret ()
  | c :: cs' => exec c ;; exec_all cs'
  end.

End programs.

(** ** The system flag as a store invariant *)

(** The cell [l] is live and classified as a system fault. *)
Definition flagged (l : loc) (h : heap) : Prop :=
  ∃ e, h !! l = Some e ∧ System e = true.

(** A computation that, when it returns, has kept [l] flagged. *)
Definition keeps {A} (l : loc) (m : M A) : Prop :=
  ∀ (h : heap) a h', flagged l h → m h = Ok (a, h') → flagged l h'.

(** An assignment that does not clear the flag. *)
Definition flag_safe (f : Error → Error) : Prop :=
  ∀ e, System e = true → System (f e) = true.

(** ** An earlier revision

    The stack options and [Error()] as an earlier revision of the file had
    them, for comparison with the present ones: [WithStack] took no depth,
    [WithStackDepth] took one, and the short form always had brackets. *)
Module Rev0.

(** The depth [WithStack()] stores in the accumulator. *)
Definition WithStack_depth : Z := 3.

(** The depth [WithStackDepth(stackDepth)] stores in the accumulator. *)
Definition WithStackDepth_depth (stackDepth : Z) : Z :=
  let stackDepth := if stackDepth <=? 0 then 1 else stackDepth in
  stackDepth.

Definition Error_WithStack (rt : Runtime) (b : option loc) : M (option loc) :=
  st ← callers rt 3 3 ;
  modify b (set_stack st) ;; mret b.

Definition Error_WithStackDepth (rt : Runtime) (b : option loc)
    (stackDepth : Z) : M (option loc) :=
  let stackDepth := if stackDepth <=? 0 then 1 else stackDepth in
  st ← callers rt 3 stackDepth ;
  modify b (set_stack st) ;; mret b.

Definition Error_Error (b : option loc) : M string :=
  e ← read b ;
  mret ("[" +:+ Code e +:+ "] " +:+ Msg e).

End Rev0.

(** ** Concrete values for the examples *)

(** A test calls a constructor: [callers], [ApplyOption], the constructor,
    the test function, the test runner. *)
Definition rt_test : Runtime :=
  mkRuntime "/go/src/github.com/" 1000
    [mkFrame 1010 "/go/src/github.com/go-estar/base-error/baseError.go";
     mkFrame 1011 "/go/src/github.com/go-estar/base-error/baseError.go";
     mkFrame 1012 "/go/src/github.com/go-estar/base-error/baseError.go";
     mkFrame 1013 "/go/src/github.com/go-estar/base-error/baseError_test.go";
     mkFrame 1014 "/usr/local/go/src/testing/testing.go";
     mkFrame 1015 "/usr/local/go/src/runtime/asm_amd64.s"]
    4096.

(** Sixteen frames, all of them in files under [sourceDir] that are not
    test files. *)
Definition rt_library : Runtime :=
  mkRuntime "/go/src/github.com/" 2000
    (map (λ i, mkFrame (2001 + i) "/go/src/github.com/acme/svc/handler.go")
         (seqZ 0 16))
    4096.

(** Options over the reference formatter. *)
Definition args_then_template : list (@Option goFmt) :=
  [@WithMsgArgs goFmt [VInt 7; VStr "x"]; @WithMsg goFmt "%d-%s"].


Definition template_only : list (@Option goFmt) := [@WithMsg goFmt "disk"].

Definition io_error : error := foreign_error "*errors.errorString" "io".

Definition stack_then_args : list (@Option goFmt) :=
  [@WithStack goFmt []; @WithMsgArgs goFmt [VInt 1; VStr "e1"]].

Definition busy_program : list (@api_call goFmt) :=
  [@DoApplyOption goFmt rt_test (Some 0%nat) [@WithMsg goFmt "disk"; @WithStack goFmt [2]];
   @DoWithSystem goFmt (Some 0%nat);
   @DoClone goFmt rt_test (Some 0%nat) [@WithCode goFmt "E2"];
   @DoWithCode goFmt (Some 0%nat) "E3";
   @DoWithMsgArgs goFmt (Some 1%nat) [VInt 4];
   @DoNewWrap goFmt rt_test (ptr_error (Some 0%nat)) [@WithChain goFmt ["db"]];
   @DoIsNotSystemError goFmt (ptr_error (Some 2%nat))].

Definition sample : Error :=
  mkError "E1" "boom" true ["api"] (foreign_error "*errors.errorString" "io") (Some [7; 8]).

(** ** Verbose rendering

    [Format] writes to a [fmt.State]; what it writes is modelled as the
    string returned.  The state contributes the answer to [Flag('+')]. *)

(** How the collaborators print: a frame of [pkg/errors] under [%+v], an
    error of another package under [%+v] (by type name and text), a string
    under [%q]. *)
Class Printer := {
  frame_plus_v : uintptr → string;
  foreign_plus_v : string → string → string;
  quote : string → string
}.

Section rendering.
Context `{P : Printer}.

(** [func (s *stack) Format(st fmt.State, verb rune)] *)
Definition stack_Format (s : option stack) (plus : bool) (verb : ascii)
    : result string :=
  if bool_decide (verb = "v"%char) then
    if plus then
      match s with
      | None => Panic NilDereference
      | Some pcs =>
          Ok (foldl (λ out pc, out +:+ String "010"%char (frame_plus_v pc)) "" pcs)
      end
    else Ok ""
  else Ok "".

(** [func (b *Error) Format(s fmt.State, verb rune)], given what
    [fmt.Fprintf(s, "%+v", cause)] writes for the cause; [None] is a call
    that has not returned. *)
Definition Format_body (Fprintf_plus_v : error → option (result string))
    (b : option loc) (plus : bool) (verb : ascii) (h : heap)
    : option (result string) :=
  let plain :=
    match Error_Error b h with
    | Ok (short, _) => Some (Ok short)
    | Panic p => Some (Panic p)
    end in
  if bool_decide (verb = "v"%char) then
    if plus then
      match Error_Error b h with
      | Panic p => Some (Panic p)
      | Ok (short, _) =>
          match read b h with
          | Panic p => Some (Panic p)
          | Ok (e, _) =>
              match (if bool_decide (stack_ptr e = None) then Ok ""
                     else stack_Format (stack_ptr e) plus verb) with
              | Panic p => Some (Panic p)
              | Ok trace =>
                  if bool_decide (cause e = nil_error)
                  then Some (Ok (short +:+ trace))
                  else
                    match Fprintf_plus_v (cause e) with
                    | None => None
                    | Some (Panic p) => Some (Panic p)
                    | Some (Ok text) =>
                        Some (Ok (short +:+ trace
                                  +:+ String "010"%char "---cause---"
                                  +:+ String "010"%char text))
                    end
              end
          end
      end
    else plain
  else if bool_decide (verb = "s"%char) then plain
  else if bool_decide (verb = "q"%char) then
    match Error_Error b h with
    | Ok (short, _) => Some (Ok (quote short))
    | Panic p => Some (Panic p)
    end
  else Some (Ok "").

(** What [fmt] writes for an error under [%+v]: [<nil>] for a nil value
    and for a nil pointer whose [Format] panics, the [Format] of a live
    [*Error], the collaborator's text for another type.  [fuel] bounds the
    nesting of [Format] calls. *)
Fixpoint Fprintf_plus_v (fuel : nat) (h : heap) (c : error)
    : option (result string) :=
  match c with
  | nil_error => Some (Ok "<nil>")
  | ptr_error None => Some (Ok "<nil>")
  | foreign_error tyname text => Some (Ok (foreign_plus_v tyname text))
  | ptr_error (Some l) =>
      match fuel with
      | O => None
      | S fuel' =>
          Format_body (Fprintf_plus_v fuel' h) (Some l) true "v"%char h
      end
  end.

Definition Error_Format (fuel : nat) (b : option loc) (plus : bool)
    (verb : ascii) (h : heap) : option (result string) :=
  Format_body (Fprintf_plus_v fuel h) b plus verb h.

End rendering.

(** The cause chain from [c] ends after [n] values of this package. *)
Inductive chain_ends (h : heap) : error → nat → Prop :=
| ends_nil : chain_ends h nil_error 0
| ends_nil_ptr : chain_ends h (ptr_error None) 0
| ends_foreign tyname text : chain_ends h (foreign_error tyname text) 0
| ends_step l e n :
    h !! l = Some e → chain_ends h (cause e) n →
    chain_ends h (ptr_error (Some l)) (S n).

(** [func (s *stack) StackTrace() errors.StackTrace]: [errors.Frame] is
    [uintptr] under another name.  [None] is a call that panics (a nil
    receiver, an index out of range). *)
Fixpoint StackTrace_loop (pcs : list uintptr) (n i : nat) (f : list uintptr)
    : option (list uintptr) :=
  match n with
  | O => Some f
  | S n' =>
      match pcs !! i with
      | Some pc => StackTrace_loop pcs n' (S i) (<[i := pc]> f)
      | None => None
      end
  end.

Definition stack_StackTrace (s : option stack) : option (list uintptr) :=
  match s with
  | None => None
  | Some pcs =>
      let f := replicate (List.length pcs) 0 in
      StackTrace_loop pcs (List.length f) 0%nat f
  end.

(** ** The library root *)

(** [filepath.Dir], [filepath.Base] and [filepath.ToSlash]. *)
Class FilePath := {
  filepath_Dir : string → string;
  filepath_Base : string → string;
  filepath_ToSlash : string → string
}.

Definition getSourceDir `{FilePath} (file : string) : string :=
  let dir := filepath_Dir file in
  let dir := filepath_Dir dir in
  let s := filepath_Dir dir in
  let s := if negb (String.eqb (filepath_Base s) "github.com") then dir else s in
  filepath_ToSlash s +:+ "/".

(** ** Vocabulary of the further properties *)

(** An accumulator that makes [ApplyOption] assign nothing. *)
Definition inert `{F : Fmt} (errOpt : ErrorOption) : bool :=
  String.eqb (code errOpt) "" && String.eqb (msg errOpt) ""
  && negb (system errOpt) && bool_decide (chain errOpt = [])
  && bool_decide (ocause errOpt = nil_error) && (depth errOpt =? 0)
  && (List.length (msgArgs errOpt) =? 0)%nat.



(** Reference collaborators for the examples: a frame prints as its
    number, another package's error as its text, a string between quotes
    (no escapes); paths are clean, absolute and slash-separated. *)
Definition refPrinter : Printer :=
  {| frame_plus_v := λ pc, "pc" +:+ pretty pc;
     foreign_plus_v := λ _ text, text;
     quote := λ s, String "034"%char (s +:+ String "034"%char "") |}.

Fixpoint split_last (s : string) (dir base : string) : string * string :=
  match s with
  | EmptyString => (dir, base)
  | String c rest =>
      if bool_decide (c = "/"%char)
      then split_last rest (dir +:+ base +:+ "/") ""
      else split_last rest dir (base +:+ String c "")
  end.

Definition ref_Dir (path : string) : string :=
  let d := fst (split_last path "" "") in
  if (String.length d <=? 1)%nat then d
  else String.substring 0 (String.length d - 1) d.

Definition refFilePath : FilePath :=
  {| filepath_Dir := ref_Dir;
     filepath_Base := λ path, snd (split_last path "" "");
     filepath_ToSlash := λ path, path |}.

(** The short form of a cell, as [Error()] computes it. *)
Definition short_form (e : Error) : string :=
  if negb (String.eqb (Code e) "") then "[" +:+ Code e +:+ "] " +:+ Msg e
  else Msg e.


Definition two_codes : list (@option_call goFmt) :=
  [@CallWithCode goFmt "E2"; @CallWithSystem goFmt].


Definition self_caused : Error :=
  mkError "E1" "loop" false [] (ptr_error (Some 0%nat)) None.

(** A wrapper at address 1 around [sample] at address 0. *)
Definition wrapped_sample : heap :=
  [sample; mkError "E7" "outer" false [] (ptr_error (Some 0%nat)) (Some [41; 42])].

(** What a constructor whose body sets the system flag to [sys] returns:
    a new value at the end of the store, classified by [sys] and the
    options. *)
Definition built_as `{F : Fmt} (sys : bool) (opts : list Option) (h : heap)
    (r : result (option loc * heap)) : Prop :=
  ∃ e',
    r = Ok (Some (List.length h), h ++ [e'])
    ∧ System e' = sys || system (apply_opts opts zeroErrorOption)
    ∧ IsBaseError (ptr_error (Some (List.length h))) (h ++ [e'])
      = Ok (true, h ++ [e'])
    ∧ IsSystemError (ptr_error (Some (List.length h))) (h ++ [e'])
      = Ok (sys || system (apply_opts opts zeroErrorOption), h ++ [e'])
    ∧ IsNotSystemError (ptr_error (Some (List.length h))) (h ++ [e'])
      = Ok (negb (sys || system (apply_opts opts zeroErrorOption)), h ++ [e']).

(** ** The earlier revision, on its own store

    The revision in which [Chain] is one string, the chain option replaces
    instead of appending, and [Init] stands where [Clone] stands now. *)
Module Legacy.

Record Error := mkError {
  Code : string;
  Msg : string;
  System : bool;
  Chain : string;
  cause : error;
  stack_ptr : option stack
}.

Definition M (A : Type) : Type := list Error → result (A * list Error).

Global Instance M_ret : MRet M := λ A a h, Ok (a, h).
Global Instance M_bind : MBind M := λ A B f m h,
  match m h with
  | Ok (a, h') => f a h'
  | Panic p => Panic p
  end.

Definition when (c : bool) (body : M ()) : M () :=
  if c then body else mret ().

Definition alloc (e : Error) : M (option loc) :=
  λ h, Ok (Some (List.length h), h ++ [e]).

Definition read (b : option loc) : M Error := λ h,
  match b with
  | None => Panic NilDereference
  | Some l =>
      match h !! l with
      | Some e => Ok (e, h)
      | None => Panic InvalidAddress
      end
  end.

Definition modify (b : option loc) (f : Error → Error) : M () := λ h,
  match b with
  | None => Panic NilDereference
  | Some l =>
      match h !! l with
      | Some e => Ok ((), <[l := f e]> h)
      | None => Panic InvalidAddress
      end
  end.

(** [callers] does not touch the store. *)
Definition callers (rt : Runtime) (skip depth : Z) : M (option stack) := λ h,
  match callers rt skip depth [] with
  | Ok (st, _) => Ok (st, h)
  | Panic p => Panic p
  end.

(** [strings.Join] *)
Fixpoint Join (elems : list string) (sep : string) : string :=
  match elems with
  | [] => ""
  | [x] => x
  | x :: rest => x +:+ sep +:+ Join rest sep
  end.

Definition set_System (v : bool) (e : Error) : Error :=
  mkError (Code e) (Msg e) v (Chain e) (cause e) (stack_ptr e).
Definition set_Chain (v : string) (e : Error) : Error :=
  mkError (Code e) (Msg e) (System e) v (cause e) (stack_ptr e).
Definition set_cause (v : error) (e : Error) : Error :=
  mkError (Code e) (Msg e) (System e) (Chain e) v (stack_ptr e).
Definition set_stack (v : option stack) (e : Error) : Error :=
  mkError (Code e) (Msg e) (System e) (Chain e) (cause e) v.
Definition set_Msg (v : string) (e : Error) : Error :=
  mkError (Code e) v (System e) (Chain e) (cause e) (stack_ptr e).

(** The [WithChain] method: the labels joined replace the chain. *)
Definition Error_WithChain (b : option loc) (labels : list string)
    : M (option loc) :=
  modify b (set_Chain (Join labels "<-")) ;; mret b.

Definition Error_Error (b : option loc) : M string :=
  e ← read b ;
  mret ("[" +:+ Code e +:+ "] " +:+ Msg e).

Definition error_Error (err : error) : M string :=
  match err with
  | nil_error => λ _, Panic NilDereference
  | ptr_error p => Error_Error p
  | foreign_error _ text => mret text
  end.

Section options.
Context `{F : Fmt}.

Record ErrorOption := mkErrorOption {
  system : bool;
  chain : list string;
  ocause : error;
  stackDepth : Z;
  formatArgs : list any
}.

Definition zeroErrorOption : ErrorOption :=
  mkErrorOption false [] nil_error 0 [].

Definition Option : Type := option (ErrorOption → ErrorOption).

Definition WithSystem : Option :=
  Some (λ opts, mkErrorOption true (chain opts) (ocause opts)
                  (stackDepth opts) (formatArgs opts)).

Definition WithChain (labels : list string) : Option :=
  Some (λ opts, mkErrorOption (system opts) labels (ocause opts)
                  (stackDepth opts) (formatArgs opts)).

Definition WithCause (c : error) : Option :=
  Some (λ opts, mkErrorOption (system opts) (chain opts) c
                  (stackDepth opts) (formatArgs opts)).

Definition WithStack : Option :=
  Some (λ opts, mkErrorOption (system opts) (chain opts) (ocause opts)
                  3 (formatArgs opts)).

Definition WithStackDepth (stackDepth0 : Z) : Option :=
  Some (λ opts,
    let stackDepth0 := if stackDepth0 <=? 0 then 1 else stackDepth0 in
    mkErrorOption (system opts) (chain opts) (ocause opts)
      stackDepth0 (formatArgs opts)).

Definition WithFormatArgs (args : list any) : Option :=
  Some (λ opts, mkErrorOption (system opts) (chain opts) (ocause opts)
                  (stackDepth opts) args).

Definition run_option (apply : Option) (errOpt : ErrorOption) : ErrorOption :=
  match apply with
  | Some f => f errOpt
  | None => errOpt
  end.

Definition apply_opts (opts : list Option) (errOpt : ErrorOption) : ErrorOption :=
  foldl (λ o apply, run_option apply o) errOpt opts.

Definition ApplyOption (rt : Runtime) (err : option loc) (opts : list Option)
    : M (option loc) :=
  if (List.length opts =? 0)%nat then mret err
  else
    let errOpt := apply_opts opts zeroErrorOption in
    when (system errOpt)
         (modify err (set_System true)) ;;
    when (0 <? List.length (chain errOpt))%nat
         (modify err (set_Chain (Join (chain errOpt) "<-"))) ;;
    when (negb (bool_decide (ocause errOpt = nil_error)))
         (modify err (set_cause (ocause errOpt))) ;;
    when (negb (stackDepth errOpt =? 0))
         (st ← callers rt 3 (stackDepth errOpt) ; modify err (set_stack st)) ;;
    when (0 <? List.length (formatArgs errOpt))%nat
         (e ← read err ;
          modify err (set_Msg (Sprintf (Msg e) (formatArgs errOpt)))) ;;
    mret err.

Definition New (rt : Runtime) (c m : string) (opts : list Option)
    : M (option loc) :=
  e ← alloc (mkError c m false "" nil_error None) ;
  ApplyOption rt e opts.

(** [Init]: no test for nil before the fields of [err] are read. *)
Definition Init (rt : Runtime) (err : option loc) (opts : list Option)
    : M (option loc) :=
  src ← read err ;
  e ← alloc (mkError (Code src) (Msg src) (System src) "" nil_error None) ;
  ApplyOption rt e opts.

Definition WrapCode (rt : Runtime) (c : string) (err : error)
    (opts : list Option) : M (option loc) :=
  if bool_decide (err = nil_error) then mret None
  else
    m ← error_Error err ;
    e ← alloc (mkError c m false "" err None) ;
    ApplyOption rt e opts.

(** The cell of [err] after the five assignments of [ApplyOption], in the
    order of the source. *)
Definition merge (rt : Runtime) (errOpt : ErrorOption) (e : Error) : Error :=
  let e := if system errOpt then set_System true e else e in
  let e := if (0 <? List.length (chain errOpt))%nat
           then set_Chain (Join (chain errOpt) "<-") e else e in
  let e := if negb (bool_decide (ocause errOpt = nil_error))
           then set_cause (ocause errOpt) e else e in
  let e := if negb (stackDepth errOpt =? 0)
           then set_stack (Some (capture rt 3 (stackDepth errOpt))) e else e in
  if (0 <? List.length (formatArgs errOpt))%nat
  then set_Msg (Sprintf (Msg e) (formatArgs errOpt)) e else e.

End options.

Definition old_sample : Error :=
  mkError "E1" "boom" true "api<-db" (foreign_error "*errors.errorString" "io")
    (Some [7; 8]).

End Legacy.

(** * Properties *)

(** ** Running the store monad *)

Lemma bind_Ok {A B} (m : M A) (k : A → M B) h a h' :
  m h = Ok (a, h') → (m ≫= k) h = k a h'.
Proof. intros Hm. unfold mbind, M_bind. by rewrite Hm. Qed.

Lemma bind_Panic {A B} (m : M A) (k : A → M B) h p :
  m h = Panic p → (m ≫= k) h = Panic p.
Proof. intros Hm. unfold mbind, M_bind. by rewrite Hm. Qed.

Lemma bind_inv {A B} (m : M A) (k : A → M B) h b h'' :
  (m ≫= k) h = Ok (b, h'') →
  ∃ a h', m h = Ok (a, h') ∧ k a h' = Ok (b, h'').
Proof.
  unfold mbind, M_bind. destruct (m h) as [[a h']|p]; [eauto | discriminate].
Qed.

Lemma read_live (h : heap) l e :
  h !! l = Some e → read (Some l) h = Ok (e, h).
Proof. intros Hl. unfold read. by rewrite Hl. Qed.

Lemma modify_live (h : heap) l e f :
  h !! l = Some e → modify (Some l) f h = Ok ((), <[l := f e]> h).
Proof. intros Hl. unfold modify. by rewrite Hl. Qed.

Lemma cell_lookup (h : heap) l e :
  (l < List.length h)%nat → <[l := e]> h !! l = Some e.
Proof. apply list_lookup_insert_eq. Qed.

(** The three shapes of guarded assignment in [ApplyOption], run on a
    store whose cell [l] holds [e]. *)
Lemma step_assign {B} (h : heap) l e c f (k : M B) :
  (l < List.length h)%nat →
  (when c (modify (Some l) f) ;; k) (<[l := e]> h)
  = k (<[l := if c then f e else e]> h).
Proof.
  intros Hl. destruct c; simpl.
  - erewrite bind_Ok; [| by apply modify_live, cell_lookup].
    by rewrite list_insert_insert_eq.
  - by erewrite bind_Ok.
Qed.

Lemma step_update {B} (h : heap) l e c (g : Error → Error → Error) (k : M B) :
  (l < List.length h)%nat →
  (when c (x ← read (Some l) ; modify (Some l) (g x)) ;; k) (<[l := e]> h)
  = k (<[l := if c then g e e else e]> h).
Proof.
  intros Hl. destruct c; simpl.
  - erewrite bind_Ok; last first.
    { erewrite bind_Ok; [| by apply read_live, cell_lookup].
      by apply modify_live, cell_lookup. }
    by rewrite list_insert_insert_eq.
  - by erewrite bind_Ok.
Qed.

Lemma callers_granted rt skip d (h : heap) :
  0 ≤ d → d ≤ maxSliceLen rt →
  callers rt skip d h = Ok (Some (capture rt skip d), h).
Proof.
  intros H0 Hmax. unfold callers, capture.
  destruct (d <? 0) eqn:E1; [lia |].
  destruct (maxSliceLen rt <? d) eqn:E2; [lia |]. done.
Qed.

Lemma step_capture {B} rt (h : heap) l e c d (k : M B) :
  (l < List.length h)%nat →
  (c = true → 0 ≤ d ∧ d ≤ maxSliceLen rt) →
  (when c (st ← callers rt 3 d ; modify (Some l) (set_stack st)) ;; k)
    (<[l := e]> h)
  = k (<[l := if c then set_stack (Some (capture rt 3 d)) e else e]> h).
Proof.
  intros Hl Hd. destruct c; simpl.
  - destruct Hd as [H0 Hmax]; [done |].
    erewrite bind_Ok; last first.
    { erewrite bind_Ok; [| by apply callers_granted].
      by apply modify_live, cell_lookup. }
    by rewrite list_insert_insert_eq.
  - by erewrite bind_Ok.
Qed.

Section merge.
Context `{F : Fmt}.

Lemma ApplyOption_no_options rt err (h : heap) :
  ApplyOption rt err [] h = Ok (err, h).
Proof. reflexivity. Qed.

(** [ApplyOption] on a live pointer, in closed form. *)
Lemma ApplyOption_live rt opts (h : heap) l e :
  h !! l = Some e →
  opts ≠ [] →
  stack_request_ok rt (depth (apply_opts opts zeroErrorOption)) →
  ApplyOption rt (Some l) opts h
  = Ok (Some l,
        <[l := format_message (apply_opts opts zeroErrorOption)
                 (merge_fields rt (apply_opts opts zeroErrorOption) e)]> h).
Proof.
  intros Hl Hopts Hd.
  assert (l < List.length h)%nat as Hlt by (by eapply lookup_lt_Some).
  unfold ApplyOption. destruct opts as [|o opts]; [done |].
  change (List.length (o :: opts) =? 0)%nat with false. cbv iota.
  set (acc := apply_opts (o :: opts) zeroErrorOption) in *.
  rewrite <- (list_insert_id h l e Hl) at 1.
  rewrite step_assign by done.
  rewrite step_assign by done.
  rewrite step_assign by done.
  rewrite (step_update h l _ _ (λ x, set_Chain (Chain x ++ chain acc))) by done.
  rewrite step_assign by done.
  rewrite step_capture; [| done |].
  2:{ intros Hne. destruct Hd as [Hz | Hd]; [| done].
      rewrite Hz in Hne. discriminate. }
  rewrite (step_update h l _ _
             (λ x, set_Msg (Sprintf (Msg x) (msgArgs acc)))) by done.
  reflexivity.
Qed.

End merge.

(** ** The accumulator *)

Section accumulator.
Context `{F : Fmt}.

Lemma apply_opts_app opts1 opts2 acc :
  apply_opts (opts1 ++ opts2) acc = apply_opts opts2 (apply_opts opts1 acc).
Proof. apply foldl_app. Qed.

Lemma apply_opts_cons o opts acc :
  apply_opts (o :: opts) acc = apply_opts opts (run_option o acc).
Proof. reflexivity. Qed.









(** The package's own options never leave a negative depth behind. *)
Lemma depth_build_nonneg cs acc :
  0 ≤ depth acc → 0 ≤ depth (apply_opts (build <$> cs) acc).
Proof.
  revert acc. induction cs as [|c cs IH]; intros acc Hacc; [done |].
  rewrite fmap_cons, apply_opts_cons. apply IH.
  destruct c; simpl; try done.
  destruct depths as [|d0 ds]; [lia |].
  destruct (0 <? d0) eqn:E; lia.
Qed.

(** A message option and message arguments, in either order. *)
Lemma msg_then_args m args :
  apply_opts [WithMsg m; WithMsgArgs args] zeroErrorOption
  = mkErrorOption "" m false [] nil_error 0 args.
Proof. reflexivity. Qed.

Lemma args_then_msg m args :
  apply_opts [WithMsgArgs args; WithMsg m] zeroErrorOption
  = mkErrorOption "" m false [] nil_error 0 args.
Proof. reflexivity. Qed.

(** The fields of the merged cell. *)
Ltac merged_cases acc :=
  unfold format_message, merge_fields;
  destruct (String.eqb (code acc) ""), (String.eqb (msg acc) ""),
    (system acc), (bool_decide (ocause acc = nil_error)), (depth acc =? 0),
    (0 <? List.length (msgArgs acc))%nat; simpl.

Lemma Code_merged rt acc e :
  Code (format_message acc (merge_fields rt acc e))
  = if String.eqb (code acc) "" then Code e else code acc.
Proof. merged_cases acc; by destruct (0 <? List.length (chain acc))%nat. Qed.

Lemma Msg_merge_fields rt acc e :
  Msg (merge_fields rt acc e)
  = if String.eqb (msg acc) "" then Msg e else msg acc.
Proof. merged_cases acc; by destruct (0 <? List.length (chain acc))%nat. Qed.

Lemma Msg_merged rt acc e :
  Msg (format_message acc (merge_fields rt acc e))
  = if (0 <? List.length (msgArgs acc))%nat
    then Sprintf (if String.eqb (msg acc) "" then Msg e else msg acc) (msgArgs acc)
    else if String.eqb (msg acc) "" then Msg e else msg acc.
Proof.
  unfold format_message. rewrite <- Msg_merge_fields with (rt := rt).
  by destruct (0 <? List.length (msgArgs acc))%nat.
Qed.

Lemma System_merged rt acc e :
  System (format_message acc (merge_fields rt acc e)) = System e || system acc.
Proof.
  merged_cases acc; destruct (0 <? List.length (chain acc))%nat; simpl;
    by destruct (System e).
Qed.


Lemma cause_merged rt acc e :
  cause (format_message acc (merge_fields rt acc e))
  = if bool_decide (ocause acc = nil_error) then cause e else ocause acc.
Proof. merged_cases acc; by destruct (0 <? List.length (chain acc))%nat. Qed.


End accumulator.

(** ** Merging into a cell *)

Section cells.
Context `{F : Fmt}.

Lemma merge_zero rt e :
  format_message zeroErrorOption (merge_fields rt zeroErrorOption e) = e.
Proof. by destruct e. Qed.

(** [ApplyOption] on a live pointer, for any option list. *)
Lemma ApplyOption_cell rt opts (h : heap) l e :
  h !! l = Some e →
  stack_request_ok rt (depth (apply_opts opts zeroErrorOption)) →
  ApplyOption rt (Some l) opts h
  = Ok (Some l,
        <[l := format_message (apply_opts opts zeroErrorOption)
                 (merge_fields rt (apply_opts opts zeroErrorOption) e)]> h).
Proof.
  intros Hl Hd. destruct opts as [|o opts].
  - rewrite ApplyOption_no_options. simpl. rewrite merge_zero.
    by rewrite list_insert_id.
  - by apply ApplyOption_live.
Qed.

(** [ApplyOption] on the cell a constructor has just allocated. *)
Lemma ApplyOption_fresh rt opts (h : heap) e0 :
  stack_request_ok rt (depth (apply_opts opts zeroErrorOption)) →
  ApplyOption rt (Some (List.length h)) opts (h ++ [e0])
  = Ok (Some (List.length h),
        h ++ [format_message (apply_opts opts zeroErrorOption)
                (merge_fields rt (apply_opts opts zeroErrorOption) e0)]).
Proof.
  intros Hd.
  rewrite (ApplyOption_cell rt opts (h ++ [e0]) (List.length h) e0);
    [| by apply list_lookup_middle | done].
  rewrite insert_app_r_alt by done. by rewrite Nat.sub_diag.
Qed.

Lemma alloc_then {B} e0 (k : option loc → M B) (h : heap) :
  (alloc e0 ≫= k) h = k (Some (List.length h)) (h ++ [e0]).
Proof. reflexivity. Qed.

Lemma error_Error_foreign tyname text (h : heap) :
  error_Error (foreign_error tyname text) h = Ok (text, h).
Proof. reflexivity. Qed.

Lemma error_Error_not_nil err (h : heap) text h' :
  error_Error err h = Ok (text, h') → err ≠ nil_error.
Proof. by intros Hr ->. Qed.

End cells.

(** ** The options merge *)





(** ** Constructors *)

Lemma wraps_body `{F : Fmt} rt c sys err text opts (h : heap) :
  error_Error err h = Ok (text, h) →
  stack_request_ok rt (depth (apply_opts opts zeroErrorOption)) →
  wraps rt c sys err text opts h
    ((if bool_decide (err = nil_error) then mret None
      else m ← error_Error err ;
           e ← alloc (mkError c m sys [] err None) ;
           ApplyOption rt e opts) h).
Proof.
  intros Herr Hd.
  rewrite bool_decide_eq_false_2 by (by eapply error_Error_not_nil).
  erewrite bind_Ok by exact Herr. rewrite alloc_then.
  split; [reflexivity |].
  rewrite ApplyOption_fresh by done.
  eexists. split; [reflexivity |].
  split; [by intros -> |].
  split.
  - intros Hm Ha. rewrite Msg_merged, Hm, Ha. reflexivity.
  - intros Hc. rewrite cause_merged, Hc. reflexivity.
Qed.

(** C2, as amended.  Each of the four wrapping constructors returns the nil
    pointer and leaves the store untouched when the error is the nil
    interface.  When the error is present and its [Error()] yields [text],
    the constructor allocates a value with message [text] and cause the
    error (code and system flag as the constructor says) and merges the
    options into it: the result keeps that message unless a message or
    message-arguments option is among them, and that cause unless a cause
    option is. *)
Theorem wrap_constructors `{F : Fmt} rt c err text opts (h : heap) :
  error_Error err h = Ok (text, h) →
  stack_request_ok rt (depth (apply_opts opts zeroErrorOption)) →
  (NewWrap rt nil_error opts h = Ok (None, h)
   ∧ NewSystemWrap rt nil_error opts h = Ok (None, h)
   ∧ NewCodeWrap rt c nil_error opts h = Ok (None, h)
   ∧ NewSystemCodeWrap rt c nil_error opts h = Ok (None, h))
  ∧ wraps rt "" false err text opts h (NewWrap rt err opts h)
  ∧ wraps rt "" true err text opts h (NewSystemWrap rt err opts h)
  ∧ wraps rt c false err text opts h (NewCodeWrap rt c err opts h)
  ∧ wraps rt c true err text opts h (NewSystemCodeWrap rt c err opts h).
Proof.
  intros Herr Hd. split; [done |].
  repeat split; by apply wraps_body.
Qed.

Lemma wrap_constructors_witness :
  (NewWrap rt_test nil_error args_then_template [sample] = Ok (None, [sample])
   ∧ NewSystemWrap rt_test nil_error args_then_template [sample] = Ok (None, [sample])
   ∧ NewCodeWrap rt_test "E9" nil_error args_then_template [sample] = Ok (None, [sample])
   ∧ NewSystemCodeWrap rt_test "E9" nil_error args_then_template [sample]
     = Ok (None, [sample]))
  ∧ wraps rt_test "" false io_error "io" args_then_template [sample]
      (NewWrap rt_test io_error args_then_template [sample])
  ∧ wraps rt_test "" true io_error "io" args_then_template [sample]
      (NewSystemWrap rt_test io_error args_then_template [sample])
  ∧ wraps rt_test "E9" false io_error "io" args_then_template [sample]
      (NewCodeWrap rt_test "E9" io_error args_then_template [sample])
  ∧ wraps rt_test "E9" true io_error "io" args_then_template [sample]
      (NewSystemCodeWrap rt_test "E9" io_error args_then_template [sample]).
Proof.
  apply (wrap_constructors rt_test "E9" io_error "io" args_then_template [sample]).
  - reflexivity.
  - left. reflexivity.
Defined.

(** C2 as stated fails: with a message option in the list, the result's
    message is the option's, not the rendered text of the wrapped error. *)
Lemma NewWrap_message_option_counterexample :
  error_Error io_error [] = Ok ("io", [])
  ∧ NewWrap rt_test io_error template_only []
    = Ok (Some 0%nat, [mkError "" "disk" false [] io_error None])
  ∧ ¬ (∀ p (h' : heap) e,
         NewWrap rt_test io_error template_only [] = Ok (Some p, h') →
         h' !! p = Some e → Msg e = "io" ∧ cause e = io_error).
Proof.
  split; [reflexivity |]. split; [reflexivity |].
  intros Hclaim.
  destruct (Hclaim 0%nat [mkError "" "disk" false [] io_error None]
              (mkError "" "disk" false [] io_error None)) as [Hmsg _];
    [reflexivity | reflexivity | discriminate Hmsg].
Qed.




(** ** Stack capture *)

Lemma callers_scan_none rt n i s :
  (∀ j, i ≤ j < i + Z.of_nat n → caller_frame rt j = false) →
  callers_scan rt n i s = s.
Proof.
  revert i. induction n as [|n IH]; intros i Hnone; [done |].
  simpl. rewrite Hnone by lia. apply IH. intros j Hj. apply Hnone. lia.
Qed.

Lemma callers_scan_first rt n i s k :
  i ≤ k < i + Z.of_nat n →
  caller_frame rt k = true →
  (∀ j, i ≤ j < k → caller_frame rt j = false) →
  callers_scan rt n i s = k + 1.
Proof.
  revert i. induction n as [|n IH]; intros i Hk Hhit Hbefore; [lia |].
  simpl. destruct (decide (i = k)) as [-> | Hne].
  - by rewrite Hhit.
  - rewrite Hbefore by lia. apply IH; [lia | done |].
    intros j Hj. apply Hbefore. lia.
Qed.

Lemma caller_frame_exists rt i :
  caller_frame rt i = true → 0 ≤ i ∧ ∃ f, frames rt !! Z.to_nat i = Some f.
Proof.
  unfold caller_frame, runtime_Caller.
  destruct (i <? 0) eqn:Hneg; [done |].
  destruct (frames rt !! Z.to_nat i) as [f|]; [| done].
  intros _. split; [lia | eauto].
Qed.

(** C5, as amended.  [callers] with a depth [make] grants never fails.
    When no position from [skip] up to 14 holds a caller frame (one that
    exists and is outside [sourceDir] or in a test file), the boundary stays
    the requested [skip], where the scan started, and the trace is what
    [runtime.Callers] reports from there, up to [depth] entries.  When some
    position does, the boundary is one more than the first such position
    [i], which makes the trace start at the frame [i] itself. *)
Theorem callers_boundary rt skip d (h : heap) :
  0 ≤ skip →
  0 ≤ d ∧ d ≤ maxSliceLen rt →
  ((∀ i, skip ≤ i < 15 → caller_frame rt i = false) →
   callers_scan rt (Z.to_nat (15 - skip)) skip skip = skip
   ∧ callers rt skip d h
     = Ok (Some (take (Z.to_nat d)
                   (drop (Z.to_nat skip) (callersPC rt :: map pc (frames rt)))),
           h))
  ∧ (∀ i, skip ≤ i < 15 →
       caller_frame rt i = true →
       (∀ j, skip ≤ j < i → caller_frame rt j = false) →
       callers_scan rt (Z.to_nat (15 - skip)) skip skip = i + 1
       ∧ callers rt skip d h
         = Ok (Some (take (Z.to_nat d) (drop (Z.to_nat i) (map pc (frames rt)))),
               h)
       ∧ ∃ f, frames rt !! Z.to_nat i = Some f
              ∧ (0 < d →
                 head (take (Z.to_nat d) (drop (Z.to_nat i) (map pc (frames rt))))
                 = Some (pc f))).
Proof.
  intros Hskip [Hd0 Hdmax]. split.
  - intros Hnone.
    assert (callers_scan rt (Z.to_nat (15 - skip)) skip skip = skip) as Hs.
    { apply callers_scan_none. intros j Hj. apply Hnone. lia. }
    split; [done |].
    rewrite callers_granted by done. unfold capture. by rewrite Hs.
  - intros i Hi Hhit Hbefore.
    assert (callers_scan rt (Z.to_nat (15 - skip)) skip skip = i + 1) as Hs.
    { apply callers_scan_first; [lia | done | done]. }
    split; [done |].
    destruct (caller_frame_exists rt i Hhit) as [Hi0 [f Hf]].
    split.
    + rewrite callers_granted by done. unfold capture, runtime_Callers.
      rewrite Hs. replace (Z.to_nat (i + 1)) with (S (Z.to_nat i)) by lia.
      reflexivity.
    + exists f. split; [done |]. intros Hpos.
      replace (Z.to_nat d) with (S (Z.to_nat d - 1)) by lia.
      rewrite (drop_S _ (pc f)); [reflexivity |].
      by rewrite list_lookup_fmap, Hf.
Qed.

Lemma callers_boundary_witness :
  (callers_scan rt_library (Z.to_nat (15 - 3)) 3 3 = 3
   ∧ callers rt_library 3 3 [] = Ok (Some [2003; 2004; 2005], []))
  ∧ (callers_scan rt_test (Z.to_nat (15 - 3)) 3 3 = 3 + 1
     ∧ callers rt_test 3 2 [] = Ok (Some [1013; 1014], [])
     ∧ ∃ f, frames rt_test !! Z.to_nat 3 = Some f
            ∧ (0 < 2 → head [1013; 1014] = Some (pc f))).
Proof.
  split.
  - apply (callers_boundary rt_library 3 3 []); [lia | simpl; lia |].
    intros i Hi.
    assert (i = 3 ∨ i = 4 ∨ i = 5 ∨ i = 6 ∨ i = 7 ∨ i = 8 ∨ i = 9 ∨ i = 10
            ∨ i = 11 ∨ i = 12 ∨ i = 13 ∨ i = 14) as Hcases by lia.
    repeat (destruct Hcases as [-> | Hcases]; [reflexivity |]).
    subst i. reflexivity.
  - apply (callers_boundary rt_test 3 2 []); [lia | simpl; lia | lia | reflexivity |].
    intros j Hj. lia.
Defined.

(** On the test stack the first caller frame is position 3, the test
    function, and the trace starts with it. *)
Example callers_in_test :
  caller_frame rt_test 3 = true
  ∧ callers rt_test 3 3 [] = Ok (Some [1013; 1014; 1015], []).
Proof. split; reflexivity. Qed.

(** C5 as stated fails: sixteen library frames and no caller frame in
    positions 3 to 14.  The boundary is 3, where the scan started, not 14,
    the last position examined, and the trace has all three entries asked
    for, starting inside the library. *)
Lemma callers_all_library_counterexample :
  forallb (λ i, negb (caller_frame rt_library i)) (seqZ 3 12) = true
  ∧ callers_scan rt_library (Z.to_nat (15 - 3)) 3 3 = 3
  ∧ callers_scan rt_library (Z.to_nat (15 - 3)) 3 3 ≠ 14
  ∧ callers rt_library 3 3 [] = Ok (Some [2003; 2004; 2005], [])
  ∧ List.length [2003; 2004; 2005] = Z.to_nat 3.
Proof. repeat split; try reflexivity. vm_compute. discriminate. Qed.




(** The earlier revision's [WithStackDepth] did turn such a depth into 1,
    in the option and in the mutator. *)
Lemma Rev0_WithStackDepth_nonpositive rt b d (h : heap) :
  d ≤ 0 →
  Rev0.WithStackDepth_depth d = 1
  ∧ Rev0.Error_WithStackDepth rt b d h
    = (st ← callers rt 3 1 ; modify b (set_stack st) ;; mret b) h.
Proof.
  intros Hd. unfold Rev0.WithStackDepth_depth, Rev0.Error_WithStackDepth.
  by destruct (d <=? 0) eqn:E; [| lia].
Qed.

(** ** Rendering *)

(** C7. The short form of a live value is its message alone when the code
    is empty, and the code in brackets, a space and the message
    otherwise. *)
Theorem Error_Error_short_form (h : heap) l e :
  h !! l = Some e →
  (Code e ≠ "" →
   Error_Error (Some l) h = Ok ("[" +:+ Code e +:+ "] " +:+ Msg e, h))
  ∧ (Code e = "" → Error_Error (Some l) h = Ok (Msg e, h)).
Proof.
  intros Hl. unfold Error_Error.
  erewrite bind_Ok by (by apply read_live). split.
  - intros Hc. apply String.eqb_neq in Hc. by rewrite Hc.
  - intros Hc. by rewrite Hc.
Qed.

Lemma Error_Error_short_form_witness :
  ("E1" ≠ "" → Error_Error (Some 0%nat) [sample] = Ok ("[E1] boom", [sample]))
  ∧ ("E1" = "" → Error_Error (Some 0%nat) [sample] = Ok ("boom", [sample])).
Proof.
  apply (Error_Error_short_form [sample] 0%nat sample). reflexivity.
Defined.

(** The two scenarios: a coded value and an uncoded one. *)
Example NewCode_E1_boom :
  (e ← NewCode (F := goFmt) rt_test "E1" "boom" [] ; Error_Error e) []
  = Ok ("[E1] boom", [mkError "E1" "boom" false [] nil_error None]).
Proof. reflexivity. Qed.

Example New_plain :
  (e ← New (F := goFmt) rt_test "plain" [] ; Error_Error e) []
  = Ok ("plain", [mkError "" "plain" false [] nil_error None]).
Proof. reflexivity. Qed.

(** A template option and arguments given to a constructor. *)
Example New_template_and_args :
  (e ← New rt_test "raw" [@WithMsg goFmt "%d-%s"; @WithMsgArgs goFmt [VInt 7; VStr "x"]] ;
   Error_Error e) []
  = Ok ("7-x", [mkError "" "7-x" false [] nil_error None]).
Proof. reflexivity. Qed.

(** The earlier revision bracketed the empty code too. *)
Example Rev0_plain :
  Rev0.Error_Error (Some 0%nat) [mkError "" "plain" false [] nil_error None]
  = Ok ("[] plain", [mkError "" "plain" false [] nil_error None]).
Proof. reflexivity. Qed.

(** The package's own test: a template, then a clone with the arguments. *)
Example TestNewBaseError :
  (err ← NewCode rt_test "1" "test%d%s" [@WithStack goFmt []] ;
   e1 ← Clone rt_test err [@WithMsgArgs goFmt [VInt 1; VStr "e1"]] ;
   Error_Error e1) []
  = Ok ("[1] test1e1",
        [mkError "1" "test%d%s" false [] nil_error (Some [1013; 1014; 1015]);
         mkError "1" "test1e1" false [] nil_error None]).
Proof. reflexivity. Qed.

(** ** The system flag *)

Section system_flag.
Context `{F : Fmt} (l : loc).

Lemma keeps_ret {A} (a : A) : keeps l (mret a).
Proof. intros h a' h' Hf Hr. injection Hr as _ <-. done. Qed.

Lemma keeps_throw {A} p : keeps l (@throw A p).
Proof. intros h a h' _ Hr. discriminate Hr. Qed.

Lemma keeps_bind {A B} (m : M A) (k : A → M B) :
  keeps l m → (∀ a, keeps l (k a)) → keeps l (m ≫= k).
Proof.
  intros Hm Hk h b h'' Hf Hr.
  apply bind_inv in Hr as (a & h' & Hm' & Hk').
  eapply Hk; [| exact Hk']. eapply Hm; [exact Hf | exact Hm'].
Qed.

Lemma keeps_when c body : keeps l body → keeps l (when c body).
Proof. destruct c; [done | intros _; apply keeps_ret]. Qed.

Lemma keeps_if {A} (c : bool) (m1 m2 : M A) :
  keeps l m1 → keeps l m2 → keeps l (if c then m1 else m2).
Proof. by destruct c. Qed.

Lemma keeps_read b : keeps l (read b).
Proof.
  intros h e h' Hf Hr. unfold read in Hr.
  destruct b as [l'|]; [| discriminate].
  destruct (h !! l'); [| discriminate]. injection Hr as _ <-. done.
Qed.

Lemma keeps_alloc e0 : keeps l (alloc e0).
Proof.
  intros h a h' (e & He & Hs) Hr. injection Hr as _ <-.
  exists e. split; [by apply lookup_app_l_Some | done].
Qed.

Lemma keeps_modify b f : flag_safe f → keeps l (modify b f).
Proof.
  intros Hsafe h a h' (e & He & Hs) Hr. unfold modify in Hr.
  destruct b as [l'|]; [| discriminate].
  destruct (h !! l') as [e0|] eqn:He0; [| discriminate].
  simplify_eq. destruct (decide (l' = l)) as [-> | Hne].
  - exists (f e0). split.
    + apply list_lookup_insert_eq. by eapply lookup_lt_Some.
    + apply Hsafe. congruence.
  - exists e. split; [by rewrite list_lookup_insert_ne | done].
Qed.

Lemma keeps_callers rt skip d : keeps l (callers rt skip d).
Proof.
  intros h a h' Hf Hr. unfold callers in Hr.
  destruct (_ || _); [discriminate |]. injection Hr as _ <-. done.
Qed.

Lemma flag_safe_set_Code v : flag_safe (set_Code v).
Proof. by intros e. Qed.
Lemma flag_safe_set_Msg v : flag_safe (set_Msg v).
Proof. by intros e. Qed.
Lemma flag_safe_set_System_true : flag_safe (set_System true).
Proof. by intros e. Qed.
Lemma flag_safe_set_Chain v : flag_safe (set_Chain v).
Proof. by intros e. Qed.
Lemma flag_safe_set_cause v : flag_safe (set_cause v).
Proof. by intros e. Qed.
Lemma flag_safe_set_stack v : flag_safe (set_stack v).
Proof. by intros e. Qed.

Create HintDb keeps.
#[local] Hint Resolve keeps_ret keeps_throw keeps_when keeps_if keeps_read
  keeps_alloc keeps_modify keeps_callers flag_safe_set_Code flag_safe_set_Msg
  flag_safe_set_System_true flag_safe_set_Chain flag_safe_set_cause
  flag_safe_set_stack : keeps.

Ltac keeps_steps :=
  repeat first
    [ apply keeps_bind; [| intros ?]
    | apply keeps_when
    | apply keeps_if
    | progress eauto with keeps ].

Lemma keeps_ApplyOption rt err opts : keeps l (ApplyOption rt err opts).
Proof. unfold ApplyOption. keeps_steps. Qed.

Lemma keeps_Error_Error b : keeps l (Error_Error b).
Proof. unfold Error_Error. keeps_steps. Qed.

Lemma keeps_error_Error err : keeps l (error_Error err).
Proof.
  destruct err; simpl; [apply keeps_throw | apply keeps_Error_Error | apply keeps_ret].
Qed.

Lemma keeps_Clone rt err opts : keeps l (Clone rt err opts).
Proof.
  unfold Clone. destruct err; [| apply keeps_ret].
  keeps_steps.
Qed.

Lemma keeps_TypeOf_String err : keeps l (TypeOf_String err).
Proof. destruct err; simpl; eauto with keeps. Qed.

Lemma keeps_assert_Error err : keeps l (assert_Error err).
Proof. destruct err; simpl; eauto with keeps. Qed.

Lemma keeps_exec c : keeps l (exec c).
Proof.
  destruct c; simpl; apply keeps_bind; try (intros ?; apply keeps_ret);
    first
      [ apply keeps_ApplyOption
      | apply keeps_Clone
      | apply keeps_Error_Error
      | unfold New, NewSystem, NewCode, NewSystemCode, NewWrap, NewSystemWrap,
          NewCodeWrap, NewSystemCodeWrap, Error_WithCode, Error_WithMsg,
          Error_WithMsgArgs, Error_WithMsgFormat, Error_WithSystem,
          Error_WithChain, Error_WithCause, Error_WithStack, Error_Stack,
          Error_Cause, Error_Unwrap, IsBaseError, IsSystemError,
          IsNotSystemError;
        keeps_steps;
        try first [ apply keeps_ApplyOption | apply keeps_error_Error
                  | apply keeps_TypeOf_String | apply keeps_assert_Error ] ].
Qed.

Lemma keeps_exec_all cs : keeps l (exec_all cs).
Proof.
  induction cs as [|c cs IH]; simpl; [apply keeps_ret |].
  apply keeps_bind; [apply keeps_exec | intros _; apply IH].
Qed.

End system_flag.

(** C8. Once the system flag of a live value is true, it is true after any
    run of calls into the package that returns: merges, mutators,
    constructors, clones, renderings and predicates, on this value or on
    any other. *)
Theorem system_flag_is_monotonic `{F : Fmt} l (cs : list api_call)
    (h h' : heap) e :
  h !! l = Some e →
  System e = true →
  exec_all cs h = Ok ((), h') →
  ∃ e', h' !! l = Some e' ∧ System e' = true.
Proof.
  intros Hl Hs Hrun.
  apply (keeps_exec_all l cs h () h'); [by exists e | done].
Qed.

Lemma system_flag_is_monotonic_witness :
  ∃ e',
    [mkError "E3" "disk" true ["api"] io_error (Some [1013; 1014]);
     mkError "E2" "disk%!(EXTRA int=4)" true ["api"] io_error None;
     mkError "" "[E3] disk" false ["db"] (ptr_error (Some 0%nat)) None]
      !! 0%nat = Some e'
    ∧ System e' = true.
Proof.
  apply (system_flag_is_monotonic (F := goFmt) 0%nat busy_program [sample] _ sample).
  - reflexivity.
  - reflexivity.
  - reflexivity.
Defined.

(** ** Classification predicates *)

(** C9, as amended.  The two fault predicates never both answer true, for
    any error value.  On a live value of this package's type the
    structured-error predicate answers true and exactly one of the two
    holds: the system one when the flag is set, the business one when it
    is not.  On a non-nil error whose type name is another, all three
    answer false. *)
Theorem fault_predicates_partition (h : heap) l e err tyname text :
  h !! l = Some e →
  tyname ≠ "*baseError.Error" →
  (∀ h1 h2, ¬ (IsSystemError err h = Ok (true, h1)
               ∧ IsNotSystemError err h = Ok (true, h2)))
  ∧ IsBaseError (ptr_error (Some l)) h = Ok (true, h)
  ∧ IsSystemError (ptr_error (Some l)) h = Ok (System e, h)
  ∧ IsNotSystemError (ptr_error (Some l)) h = Ok (negb (System e), h)
  ∧ ((IsSystemError (ptr_error (Some l)) h = Ok (true, h)
      ∧ IsNotSystemError (ptr_error (Some l)) h = Ok (false, h))
     ∨ (IsSystemError (ptr_error (Some l)) h = Ok (false, h)
        ∧ IsNotSystemError (ptr_error (Some l)) h = Ok (true, h)))
  ∧ IsBaseError (foreign_error tyname text) h = Ok (false, h)
  ∧ IsSystemError (foreign_error tyname text) h = Ok (false, h)
  ∧ IsNotSystemError (foreign_error tyname text) h = Ok (false, h).
Proof.
  intros Hl Hty.
  assert (IsSystemError (ptr_error (Some l)) h = Ok (System e, h)) as Hsys.
  { unfold IsSystemError. simpl. unfold mbind, M_bind. simpl. by rewrite Hl. }
  assert (IsNotSystemError (ptr_error (Some l)) h = Ok (negb (System e), h))
    as Hbus.
  { unfold IsNotSystemError. simpl. unfold mbind, M_bind. simpl. by rewrite Hl. }
  apply String.eqb_neq in Hty.
  split.
  { intros h1 h2 [H1 H2]. destruct err as [|[l'|]|ty tx].
    - discriminate H1.
    - unfold IsSystemError, IsNotSystemError, mbind, M_bind in H1, H2.
      simpl in H1, H2. destruct (h !! l') as [e0|]; [| discriminate].
      simpl in H1, H2. destruct (System e0); simplify_eq.
    - discriminate H1.
    - unfold IsSystemError, IsNotSystemError, mbind, M_bind in H1, H2.
      simpl in H1, H2.
      destruct (String.eqb ty "*baseError.Error"); simplify_eq. }
  split; [reflexivity |]. split; [exact Hsys |]. split; [exact Hbus |].
  split.
  { rewrite Hsys, Hbus. destruct (System e); [left | right]; done. }
  unfold IsBaseError, IsSystemError, IsNotSystemError, mbind, M_bind. simpl.
  by rewrite Hty.
Qed.

Lemma fault_predicates_partition_witness :
  (∀ h1 h2, ¬ (IsSystemError (ptr_error None) [sample] = Ok (true, h1)
               ∧ IsNotSystemError (ptr_error None) [sample] = Ok (true, h2)))
  ∧ IsBaseError (ptr_error (Some 0%nat)) [sample] = Ok (true, [sample])
  ∧ IsSystemError (ptr_error (Some 0%nat)) [sample] = Ok (true, [sample])
  ∧ IsNotSystemError (ptr_error (Some 0%nat)) [sample] = Ok (false, [sample])
  ∧ ((IsSystemError (ptr_error (Some 0%nat)) [sample] = Ok (true, [sample])
      ∧ IsNotSystemError (ptr_error (Some 0%nat)) [sample] = Ok (false, [sample]))
     ∨ (IsSystemError (ptr_error (Some 0%nat)) [sample] = Ok (false, [sample])
        ∧ IsNotSystemError (ptr_error (Some 0%nat)) [sample] = Ok (true, [sample])))
  ∧ IsBaseError io_error [sample] = Ok (false, [sample])
  ∧ IsSystemError io_error [sample] = Ok (false, [sample])
  ∧ IsNotSystemError io_error [sample] = Ok (false, [sample]).
Proof.
  apply (fault_predicates_partition [sample] 0%nat sample (ptr_error None)
           "*errors.errorString" "io").
  - reflexivity.
  - discriminate.
Defined.

(** C9 as stated fails: a nil pointer of this package's type inside a
    non-nil interface (what a nil result of [NewWrap] or [Clone] becomes
    once stored in an [error]) satisfies the structured-error predicate,
    and neither fault predicate holds of it: both panic. *)
Lemma typed_nil_counterexample :
  IsBaseError (ptr_error None) [] = Ok (true, [])
  ∧ IsSystemError (ptr_error None) [] = Panic NilDereference
  ∧ IsNotSystemError (ptr_error None) [] = Panic NilDereference
  ∧ ¬ (IsBaseError (ptr_error None) [] = Ok (true, []) →
       IsSystemError (ptr_error None) [] = Ok (true, [])
       ∨ IsNotSystemError (ptr_error None) [] = Ok (true, [])).
Proof.
  split; [reflexivity |]. split; [reflexivity |]. split; [reflexivity |].
  intros Hclaim. destruct Hclaim as [H | H]; [reflexivity | |]; discriminate H.
Qed.

(** A type of another package that prints under the same name passes the
    name test and then fails the type assertion. *)
Example same_name_other_package :
  IsBaseError (foreign_error "*baseError.Error" "x") [] = Ok (true, [])
  ∧ IsSystemError (foreign_error "*baseError.Error" "x") []
    = Panic InterfaceConversion.
Proof. split; reflexivity. Qed.

(** C10. On the nil error each of the three predicates panics: it asks the
    nil [reflect.Type] for its name. *)
Theorem predicates_panic_on_nil (h : heap) :
  IsBaseError nil_error h = Panic NilDereference
  ∧ IsSystemError nil_error h = Panic NilDereference
  ∧ IsNotSystemError nil_error h = Panic NilDereference.
Proof. repeat split. Qed.

(** * Further properties *)

(** ** Prefixes, suffixes and the frame test *)

Lemma substring_whole s : String.substring 0 (String.length s) s = s.
Proof. induction s as [|c s IH]; simpl; [done | by rewrite IH]. Qed.

Lemma substring_app_l p t :
  String.substring 0 (String.length p) (p +:+ t) = p.
Proof.
  induction p as [|c p IH]; simpl; [by destruct t | by rewrite IH].
Qed.

Lemma substring_app_r t x n :
  String.substring (String.length t) n (t +:+ x) = String.substring 0 n x.
Proof. induction t as [|c t IH]; simpl; [done | apply IH]. Qed.

Lemma substring_split s n :
  (n ≤ String.length s)%nat →
  s = String.substring 0 n s
      +:+ String.substring n (String.length s - n) s.
Proof.
  revert n. induction s as [|c s IH]; intros n Hn; simpl in *.
  - by destruct n.
  - destruct n as [|n]; simpl.
    + by rewrite substring_whole.
    + transitivity (String c (String.substring 0 n s
                              +:+ String.substring n (String.length s - n) s));
        [f_equal; apply IH; lia | reflexivity].
Qed.

Lemma length_append s t :
  String.length (s +:+ t) = (String.length s + String.length t)%nat.
Proof. induction s as [|c s IH]; simpl; [done | by rewrite IH]. Qed.

Lemma append_nil_r s : s +:+ "" = s.
Proof.
  induction s as [|c s IH]; [done |].
  change (String c (s +:+ "") = String c s). by f_equal.
Qed.

Lemma append_assoc s t u : s +:+ (t +:+ u) = (s +:+ t) +:+ u.
Proof.
  induction s as [|c s IH]; [done |].
  change (String c (s +:+ (t +:+ u)) = String c ((s +:+ t) +:+ u)).
  by f_equal.
Qed.

Lemma HasPrefix_spec s p : HasPrefix s p = true ↔ ∃ t, s = p +:+ t.
Proof.
  unfold HasPrefix. rewrite andb_true_iff, Nat.leb_le, String.eqb_eq. split.
  - intros [Hlen Hsub].
    exists (String.substring (String.length p)
              (String.length s - String.length p) s).
    rewrite <- Hsub at 1. by apply substring_split.
  - intros [t ->]. rewrite length_append. split; [lia |].
    apply substring_app_l.
Qed.

Lemma HasSuffix_spec s x : HasSuffix s x = true ↔ ∃ t, s = t +:+ x.
Proof.
  unfold HasSuffix. rewrite andb_true_iff, Nat.leb_le, String.eqb_eq. split.
  - intros [Hlen Hsub].
    exists (String.substring 0 (String.length s - String.length x) s).
    pose proof (substring_split s (String.length s - String.length x))
      as Hsplit.
    replace (String.length s - (String.length s - String.length x))%nat
      with (String.length x) in Hsplit by lia.
    rewrite Hsub in Hsplit. apply Hsplit. lia.
  - intros [t ->]. rewrite length_append. split; [lia |].
    replace (String.length t + String.length x - String.length x)%nat
      with (String.length t) by lia.
    rewrite substring_app_r. apply substring_whole.
Qed.

(** X1. The scan of [callers] takes a position for a caller frame exactly
    when the stack reaches it and the frame's file either does not begin
    with [sourceDir] or ends in [_test.go]; a position beyond the stack
    never is one. *)
Theorem caller_frame_spec rt i f :
  0 ≤ i →
  frames rt !! Z.to_nat i = Some f →
  (caller_frame rt i = true
   ↔ (¬ ∃ rest, file f = sourceDir rt +:+ rest)
     ∨ (∃ stem, file f = stem +:+ "_test.go"))
  ∧ (∀ j, Z.of_nat (List.length (frames rt)) ≤ j → caller_frame rt j = false).
Proof.
  intros Hi Hf. split.
  - unfold caller_frame, runtime_Caller.
    destruct (i <? 0) eqn:Hneg; [lia |]. rewrite Hf. simpl.
    rewrite orb_true_iff, negb_true_iff, HasSuffix_spec.
    rewrite <- not_true_iff_false, HasPrefix_spec. done.
  - intros j Hj. unfold caller_frame, runtime_Caller.
    destruct (j <? 0) eqn:Hneg; [done |].
    rewrite lookup_ge_None_2 by lia. done.
Qed.

Lemma caller_frame_spec_witness :
  (caller_frame rt_test 3 = true
   ↔ (¬ ∃ rest,
         "/go/src/github.com/go-estar/base-error/baseError_test.go"
         = "/go/src/github.com/" +:+ rest)
     ∨ (∃ stem,
          "/go/src/github.com/go-estar/base-error/baseError_test.go"
          = stem +:+ "_test.go"))
  ∧ (∀ j, Z.of_nat (List.length (frames rt_test)) ≤ j →
       caller_frame rt_test j = false).
Proof.
  apply (caller_frame_spec rt_test 3
           (mkFrame 1013 "/go/src/github.com/go-estar/base-error/baseError_test.go")).
  - lia.
  - reflexivity.
Defined.

(** X2. A file passes the prefix test against the result of [getSourceDir]
    exactly when it is the chosen root, a slash and a remainder; the result
    always ends in the slash, so a sibling whose name only extends the
    root's is outside. *)
Theorem getSourceDir_prefix `{FP : FilePath} src_file frame_file root :
  root = (if negb (String.eqb
                     (filepath_Base
                        (filepath_Dir (filepath_Dir (filepath_Dir src_file))))
                     "github.com")
          then filepath_Dir (filepath_Dir src_file)
          else filepath_Dir (filepath_Dir (filepath_Dir src_file))) →
  HasSuffix (getSourceDir src_file) "/" = true
  ∧ getSourceDir src_file ≠ ""
  ∧ (HasPrefix frame_file (getSourceDir src_file) = true
     ↔ ∃ rest, frame_file = filepath_ToSlash root +:+ "/" +:+ rest).
Proof.
  intros ->. unfold getSourceDir.
  set (root := if negb _ then _ else _).
  split; [apply HasSuffix_spec; eauto |].
  split; [by destruct (filepath_ToSlash root) |].
  rewrite HasPrefix_spec. split; intros [rest ->]; exists rest.
  - by rewrite <- append_assoc.
  - by rewrite append_assoc.
Qed.

Lemma getSourceDir_prefix_witness :
  HasSuffix (getSourceDir (H := refFilePath)
               "/go/src/github.com/go-estar/base-error/baseError.go") "/" = true
  ∧ getSourceDir (H := refFilePath)
      "/go/src/github.com/go-estar/base-error/baseError.go" ≠ ""
  ∧ (HasPrefix "/go/src/github.com-mirror/x/y.go"
       (getSourceDir (H := refFilePath)
          "/go/src/github.com/go-estar/base-error/baseError.go") = true
     ↔ ∃ rest, "/go/src/github.com-mirror/x/y.go"
               = "/go/src/github.com" +:+ "/" +:+ rest).
Proof.
  apply (getSourceDir_prefix (FP := refFilePath)
           "/go/src/github.com/go-estar/base-error/baseError.go"
           "/go/src/github.com-mirror/x/y.go" "/go/src/github.com").
  reflexivity.
Defined.

Example getSourceDir_of_package :
  getSourceDir (H := refFilePath)
    "/go/src/github.com/go-estar/base-error/baseError.go"
  = "/go/src/github.com/"
  ∧ getSourceDir (H := refFilePath) "/work/vendor/base-error/baseError.go"
    = "/work/vendor/".
Proof. split; reflexivity. Qed.

(** ** The snapshot *)

Lemma callers_scan_range rt n i s :
  s ≤ i →
  s ≤ callers_scan rt n i s ∧ callers_scan rt n i s ≤ Z.max s (i + Z.of_nat n).
Proof.
  revert i. induction n as [|n IH]; intros i Hs; simpl; [lia |].
  destruct (caller_frame rt i); [lia |].
  specialize (IH (i + 1)). lia.
Qed.

(** X3. With a depth [make] grants, the snapshot of [callers] is a run of
    consecutive entries of what [runtime.Callers] can report, starting at a
    boundary between [skip] and 15, and it has the requested number of
    entries or as many as the stack has left there, whichever is
    smaller. *)
Theorem callers_snapshot_segment rt skip d (h : heap) :
  0 ≤ skip ≤ 15 →
  0 ≤ d ∧ d ≤ maxSliceLen rt →
  ∃ s st,
    skip ≤ s ≤ 15
    ∧ callers rt skip d h = Ok (Some st, h)
    ∧ st = take (Z.to_nat d)
             (drop (Z.to_nat s) (callersPC rt :: map pc (frames rt)))
    ∧ List.length st
      = Nat.min (Z.to_nat d) (S (List.length (frames rt)) - Z.to_nat s).
Proof.
  intros Hskip [Hd0 Hdmax].
  exists (callers_scan rt (Z.to_nat (15 - skip)) skip skip), (capture rt skip d).
  split.
  { pose proof (callers_scan_range rt (Z.to_nat (15 - skip)) skip skip). lia. }
  split; [by apply callers_granted |].
  split; [reflexivity |].
  unfold capture, runtime_Callers.
  rewrite length_take, length_drop. simpl. by rewrite length_map.
Qed.

Lemma callers_snapshot_segment_witness :
  ∃ s st,
    3 ≤ s ≤ 15
    ∧ callers rt_test 3 5 [] = Ok (Some st, [])
    ∧ st = take (Z.to_nat 5)
             (drop (Z.to_nat s) (callersPC rt_test :: map pc (frames rt_test)))
    ∧ List.length st
      = Nat.min (Z.to_nat 5) (S (List.length (frames rt_test)) - Z.to_nat s).
Proof.
  apply (callers_snapshot_segment rt_test 3 5 []).
  - lia.
  - simpl. lia.
Defined.

(** Five entries asked for, three left above the test function. *)
Example callers_partial :
  callers rt_test 3 5 [] = Ok (Some [1013; 1014; 1015], []).
Proof. reflexivity. Qed.

Lemma StackTrace_loop_copies todo done (f : list uintptr) i :
  i = List.length done →
  List.length f = List.length (done ++ todo) →
  take i f = done →
  StackTrace_loop (done ++ todo) (List.length todo) i f = Some (done ++ todo).
Proof.
  revert done f i. induction todo as [|pc todo IH]; intros done f i -> Hlen Hdone.
  - simpl. rewrite app_nil_r in *. f_equal.
    rewrite <- Hdone. by rewrite take_ge by lia.
  - simpl. rewrite list_lookup_middle by done.
    replace (done ++ pc :: todo) with ((done ++ [pc]) ++ todo) in *
      by (by rewrite <- app_assoc).
    apply IH.
    + rewrite length_app. simpl. lia.
    + by rewrite length_insert.
    + rewrite !length_app in Hlen. simpl in Hlen.
      rewrite (take_S_r _ _ pc).
      * rewrite take_insert_ge by lia. by rewrite Hdone.
      * apply list_lookup_insert_eq. lia.
Qed.

(** X4. [StackTrace] of a snapshot returns its entries, all of them and in
    order, in a slice of its own; on a nil snapshot it panics. *)
Theorem StackTrace_copies (pcs : stack) :
  stack_StackTrace (Some pcs) = Some pcs
  ∧ stack_StackTrace None = None.
Proof.
  split; [| reflexivity]. unfold stack_StackTrace.
  rewrite length_replicate.
  apply (StackTrace_loop_copies pcs [] (replicate (List.length pcs) 0) 0%nat);
    [done | by rewrite length_replicate | done].
Qed.

(** ** Verbose rendering *)

Section rendering_facts.
Context `{P : Printer}.

Lemma Error_Error_live (h : heap) l e :
  h !! l = Some e → Error_Error (Some l) h = Ok (short_form e, h).
Proof.
  intros Hl. unfold Error_Error, short_form.
  erewrite bind_Ok by (by apply read_live).
  by destruct (negb (String.eqb (Code e) "")).
Qed.

Lemma stack_Format_live pcs :
  ∃ trace, stack_Format (Some pcs) true "v" = Ok trace.
Proof. unfold stack_Format. simpl. eauto. Qed.

(** The verbose branch of [Format] on a live value. *)
Lemma Format_body_verbose render (h : heap) l e :
  h !! l = Some e →
  ∃ trace,
    Format_body render (Some l) true "v" h
    = if bool_decide (cause e = nil_error)
      then Some (Ok (short_form e +:+ trace))
      else match render (cause e) with
           | None => None
           | Some (Panic p) => Some (Panic p)
           | Some (Ok text) =>
               Some (Ok (short_form e +:+ trace
                         +:+ String "010"%char "---cause---"
                         +:+ String "010"%char text))
           end.
Proof.
  intros Hl. unfold Format_body.
  rewrite (Error_Error_live h l e Hl), (read_live h l e Hl).
  rewrite (bool_decide_eq_true_2 ("v"%char = "v"%char)) by done.
  destruct (stack_ptr e) as [pcs|] eqn:Hst.
  - destruct (stack_Format_live pcs) as [trace Htrace].
    rewrite bool_decide_eq_false_2 by done. rewrite Htrace. by exists trace.
  - rewrite bool_decide_eq_true_2 by done. by exists "".
Qed.

Lemma Fprintf_plus_v_ends (h : heap) c n :
  chain_ends h c n →
  ∀ fuel, (n ≤ fuel)%nat → ∃ text, Fprintf_plus_v fuel h c = Some (Ok text).
Proof.
  induction 1 as [| |tyname text|l e n Hl Hends IH]; intros fuel Hfuel.
  - destruct fuel; simpl; eauto.
  - destruct fuel; simpl; eauto.
  - destruct fuel; simpl; eauto.
  - destruct fuel as [|fuel]; [lia |]. simpl.
    destruct (Format_body_verbose (Fprintf_plus_v fuel h) h l e Hl)
      as [trace ->].
    destruct (bool_decide (cause e = nil_error)); [eauto |].
    destruct (IH fuel) as [text ->]; [lia | eauto].
Qed.

Lemma Fprintf_plus_v_returns (h : heap) fuel :
  ∀ c text, Fprintf_plus_v fuel h c = Some (Ok text) →
  ∃ n, (n ≤ fuel)%nat ∧ chain_ends h c n.
Proof.
  induction fuel as [|fuel IH]; intros c text Hret.
  - destruct c as [|[l|]|tyname tx]; simpl in Hret; try discriminate;
      exists 0%nat; split; try lia; constructor.
  - destruct c as [|[l|]|tyname tx]; simpl in Hret;
      try (exists 0%nat; split; [lia | constructor]).
    destruct (h !! l) as [e|] eqn:Hl.
    + destruct (Format_body_verbose (Fprintf_plus_v fuel h) h l e Hl)
        as [trace Hbody].
      rewrite Hbody in Hret.
      destruct (bool_decide (cause e = nil_error)) eqn:Hc.
      * apply bool_decide_eq_true in Hc. exists 1%nat. split; [lia |].
        eapply ends_step; [done |]. rewrite Hc. constructor.
      * destruct (Fprintf_plus_v fuel h (cause e)) as [[tx|p]|] eqn:Hrec;
          try discriminate.
        destruct (IH _ _ Hrec) as (n & Hn & Hends).
        exists (S n). split; [lia |]. by eapply ends_step.
    + unfold Format_body, Error_Error, read, mbind, M_bind in Hret.
      simpl in Hret. rewrite Hl in Hret. discriminate.
Qed.

End rendering_facts.

(** X5. The verbose form of a live value is returned exactly when the cause
    chain, followed through values of this package, comes to an end: fuel
    for the length of the chain is enough, and the text then begins with
    the short form; conversely a call that returns has walked a chain that
    ends. *)
Theorem Format_verbose_returns_iff_chain_ends `{P : Printer} (h : heap) l e :
  h !! l = Some e →
  (∀ n fuel, chain_ends h (cause e) n → (n ≤ fuel)%nat →
     ∃ rest, Error_Format fuel (Some l) true "v" h
             = Some (Ok (short_form e +:+ rest)))
  ∧ (∀ fuel out, Error_Format fuel (Some l) true "v" h = Some (Ok out) →
       ∃ n, chain_ends h (cause e) n).
Proof.
  intros Hl. split.
  - intros n fuel Hends Hfuel. unfold Error_Format.
    destruct (Format_body_verbose (Fprintf_plus_v fuel h) h l e Hl)
      as [trace ->].
    destruct (bool_decide (cause e = nil_error)); [eauto |].
    destruct (Fprintf_plus_v_ends h _ n Hends fuel Hfuel) as [text ->]. eauto.
  - intros fuel out Hret. unfold Error_Format in Hret.
    destruct (Format_body_verbose (Fprintf_plus_v fuel h) h l e Hl)
      as [trace Hbody].
    rewrite Hbody in Hret.
    destruct (bool_decide (cause e = nil_error)) eqn:Hc.
    + apply bool_decide_eq_true in Hc. exists 0%nat. rewrite Hc. constructor.
    + destruct (Fprintf_plus_v fuel h (cause e)) as [[tx|p]|] eqn:Hrec;
        try discriminate.
      destruct (Fprintf_plus_v_returns h fuel _ _ Hrec) as (n & _ & Hends).
      eauto.
Qed.

Lemma Format_verbose_returns_iff_chain_ends_witness :
  ∃ rest,
    Error_Format (P := refPrinter) 1 (Some 1%nat) true "v" wrapped_sample
    = Some (Ok ("[E7] outer" +:+ rest)).
Proof.
  apply (proj1 (Format_verbose_returns_iff_chain_ends (P := refPrinter)
                  wrapped_sample 1%nat
                  (mkError "E7" "outer" false [] (ptr_error (Some 0%nat))
                     (Some [41; 42]))
                  eq_refl) 1%nat 1%nat).
  - apply (ends_step wrapped_sample 0%nat sample 0); [reflexivity |].
    apply ends_foreign.
  - lia.
Defined.

Example Format_wrapped_sample :
  Error_Format (P := refPrinter) 1 (Some 1%nat) true "v" wrapped_sample
  = Some (Ok ("[E7] outer" +:+ String "010" "pc41" +:+ String "010" "pc42"
              +:+ String "010" "---cause---"
              +:+ String "010" "[E1] boom" +:+ String "010" "pc7"
              +:+ String "010" "pc8" +:+ String "010" "---cause---"
              +:+ String "010" "io")).
Proof. reflexivity. Qed.

(** X6. Making a live value its own cause with [WithCause] leaves a value
    whose verbose form is never returned, whatever the fuel, while its
    plain form still is. *)
Theorem Format_diverges_on_self_cause `{P : Printer} (h : heap) l e :
  h !! l = Some e →
  ∃ h',
    Error_WithCause (Some l) (ptr_error (Some l)) h = Ok (Some l, h')
    ∧ (∀ fuel, Error_Format fuel (Some l) true "v" h' = None)
    ∧ (∀ fuel, Error_Format fuel (Some l) true "s" h'
               = Some (Ok (short_form e))).
Proof.
  intros Hl. set (e' := set_cause (ptr_error (Some l)) e).
  set (h' := <[l := e']> h). exists h'.
  assert (l < List.length h)%nat as Hlt by (by eapply lookup_lt_Some).
  pose proof (cell_lookup h l e' Hlt) as Hl'. fold h' in Hl'.
  split.
  { unfold Error_WithCause. by erewrite bind_Ok by (by apply modify_live). }
  assert (∀ fuel, Fprintf_plus_v fuel h' (ptr_error (Some l)) = None) as Hloop.
  { induction fuel as [|fuel IH]; [done |]. simpl.
    destruct (Format_body_verbose (Fprintf_plus_v fuel h') h' l e' Hl')
      as [trace ->].
    simpl. by rewrite IH. }
  split.
  - intros fuel. unfold Error_Format.
    destruct (Format_body_verbose (Fprintf_plus_v fuel h') h' l e' Hl')
      as [trace ->].
    simpl. by rewrite Hloop.
  - intros fuel. unfold Error_Format, Format_body.
    rewrite (Error_Error_live h' l e' Hl').
    rewrite (bool_decide_eq_false_2 ("s"%char = "v"%char)) by done.
    by rewrite (bool_decide_eq_true_2 ("s"%char = "s"%char)) by done.
Qed.

Lemma Format_diverges_on_self_cause_witness :
  ∃ h',
    Error_WithCause (Some 0%nat) (ptr_error (Some 0%nat)) [sample]
    = Ok (Some 0%nat, h')
    ∧ (∀ fuel, Error_Format (P := refPrinter) fuel (Some 0%nat) true "v" h' = None)
    ∧ (∀ fuel, Error_Format (P := refPrinter) fuel (Some 0%nat) true "s" h'
               = Some (Ok "[E1] boom")).
Proof.
  apply (Format_diverges_on_self_cause (P := refPrinter) [sample] 0%nat sample).
  reflexivity.
Defined.

(** X7. The plain forms do not look at the stack or the cause: on a live
    value [%s] and [%v] give the short form and [%q] its quotation,
    whatever the fuel; the verbose form of a value with neither stack nor
    cause is the short form too; and any other verb writes nothing, even on
    a nil receiver. *)
Theorem Format_plain_forms `{P : Printer} (h : heap) l e fuel :
  h !! l = Some e →
  (∀ plus, Error_Format fuel (Some l) plus "s" h = Some (Ok (short_form e)))
  ∧ Error_Format fuel (Some l) false "v" h = Some (Ok (short_form e))
  ∧ (∀ plus, Error_Format fuel (Some l) plus "q" h
             = Some (Ok (quote (short_form e))))
  ∧ (stack_ptr e = None → cause e = nil_error →
     Error_Format fuel (Some l) true "v" h = Some (Ok (short_form e)))
  ∧ (∀ b plus verb,
       verb ≠ "v"%char → verb ≠ "s"%char → verb ≠ "q"%char →
       Error_Format fuel b plus verb h = Some (Ok "")).
Proof.
  intros Hl. pose proof (Error_Error_live h l e Hl) as Hshort.
  unfold Error_Format, Format_body. rewrite Hshort.
  split; [| split; [| split; [| split]]].
  - intros [|]; reflexivity.
  - reflexivity.
  - intros plus. reflexivity.
  - intros Hst Hc. rewrite (read_live h l e Hl), Hst, Hc.
    rewrite !bool_decide_eq_true_2 by done. by rewrite append_nil_r.
  - intros b plus verb Hv Hs Hq.
    by rewrite !bool_decide_eq_false_2 by done.
Qed.

Lemma Format_plain_forms_witness :
  (∀ plus, Error_Format (P := refPrinter) 0 (Some 0%nat) plus "s" [self_caused]
           = Some (Ok "[E1] loop"))
  ∧ Error_Format (P := refPrinter) 0 (Some 0%nat) false "v" [self_caused]
    = Some (Ok "[E1] loop")
  ∧ (∀ plus, Error_Format (P := refPrinter) 0 (Some 0%nat) plus "q" [self_caused]
             = Some (Ok (quote (Printer := refPrinter) "[E1] loop")))
  ∧ ((None : option stack) = None → ptr_error (Some 0%nat) = nil_error →
     Error_Format (P := refPrinter) 0 (Some 0%nat) true "v" [self_caused]
     = Some (Ok "[E1] loop"))
  ∧ (∀ b plus verb,
       verb ≠ "v"%char → verb ≠ "s"%char → verb ≠ "q"%char →
       Error_Format (P := refPrinter) 0 b plus verb [self_caused] = Some (Ok "")).
Proof.
  apply (Format_plain_forms (P := refPrinter) [self_caused] 0%nat self_caused 0).
  reflexivity.
Defined.

(** ** More on the options merge *)

Section merge_facts.
Context `{F : Fmt}.

Lemma inert_fields acc :
  inert acc = true →
  String.eqb (code acc) "" = true ∧ String.eqb (msg acc) "" = true
  ∧ system acc = false ∧ chain acc = [] ∧ ocause acc = nil_error
  ∧ depth acc = 0 ∧ msgArgs acc = [].
Proof.
  unfold inert. rewrite !andb_true_iff, negb_true_iff, !bool_decide_eq_true.
  intros [[[[[[Hc Hm] Hs] Hch] Hca] Hd] Ha]. repeat split; try done.
  - lia.
  - by destruct (msgArgs acc).
Qed.




End merge_facts.

Lemma ApplyOption_inert `{F : Fmt} rt opts b (h : heap) :
  inert (apply_opts opts zeroErrorOption) = true →
  ApplyOption rt b opts h = Ok (b, h).
Proof.
  intros Hin. destruct (inert_fields _ Hin)
    as (Hcode & Hmsg & Hsys & Hchain & Hcause & Hdepth & Hargs).
  unfold ApplyOption. destruct opts as [|o opts]; [done |].
  change (List.length (o :: opts) =? 0)%nat with false. cbv iota.
  rewrite Hcode, Hmsg, Hsys, Hchain, Hcause, Hdepth, Hargs. reflexivity.
Qed.

Lemma ApplyOption_nil_panics `{F : Fmt} rt opts (h : heap) :
  inert (apply_opts opts zeroErrorOption) = false →
  ∃ p, ApplyOption rt None opts h = Panic p.
Proof.
  intros Hin. unfold ApplyOption. destruct opts as [|o opts]; [done |].
  change (List.length (o :: opts) =? 0)%nat with false. cbv iota.
  set (acc := apply_opts (o :: opts) zeroErrorOption) in *.
  unfold inert in Hin.
  destruct (String.eqb (code acc) ""); simpl; [| eauto].
  destruct (String.eqb (msg acc) ""); simpl; [| eauto].
  destruct (system acc); simpl; [eauto |].
  destruct (chain acc) as [|x xs]; simpl; [| eauto].
  destruct (bool_decide (ocause acc = nil_error)); simpl; [| eauto].
  destruct (depth acc =? 0); simpl.
  - destruct (msgArgs acc); simpl; [discriminate | eauto].
  - unfold mbind, M_bind, callers, throw.
    destruct (_ || _); simpl; eauto.
Qed.

(** X8. When the options leave the accumulator with nothing set,
    [ApplyOption] returns its argument and an unchanged store for any
    pointer, nil included; when they set anything, [ApplyOption] on the nil
    pointer panics. *)
Theorem ApplyOption_inert_or_nil `{F : Fmt} rt opts (h : heap) :
  (inert (apply_opts opts zeroErrorOption) = true →
   ∀ b, ApplyOption rt b opts h = Ok (b, h))
  ∧ (inert (apply_opts opts zeroErrorOption) = false →
     ∃ p, ApplyOption rt None opts h = Panic p).
Proof.
  split.
  - intros Hin b. by apply ApplyOption_inert.
  - apply ApplyOption_nil_panics.
Qed.

Example ApplyOption_on_nil :
  ApplyOption (F := goFmt) rt_test None [None; @WithCode goFmt ""] [] = Ok (None, [])
  ∧ ApplyOption (F := goFmt) rt_test None [@WithSystem goFmt] []
    = Panic NilDereference.
Proof. split; reflexivity. Qed.



(** X10. The last code option of the list decides: whatever came before
    it, a non-empty one becomes the code and an empty one leaves the code
    the value had, cancelling any earlier code option. *)
Theorem last_code_option_decides `{F : Fmt} rt cs c (h : heap) l e :
  h !! l = Some e →
  depth (apply_opts (build <$> cs) zeroErrorOption) ≤ maxSliceLen rt →
  ∃ e',
    ApplyOption rt (Some l) (build <$> (cs ++ [CallWithCode c])) h
    = Ok (Some l, <[l := e']> h)
    ∧ Code e' = (if String.eqb c "" then Code e else c).
Proof.
  intros Hl Hmax. rewrite fmap_app. simpl.
  set (opts := (build <$> cs) ++ [WithCode c]).
  assert (apply_opts opts zeroErrorOption
          = run_option (WithCode c) (apply_opts (build <$> cs) zeroErrorOption))
    as Hacc by (unfold opts; rewrite apply_opts_app; reflexivity).
  eexists. split.
  - apply ApplyOption_cell; [done |]. rewrite Hacc. simpl.
    right. split; [| done]. by apply depth_build_nonneg.
  - rewrite Code_merged, Hacc. reflexivity.
Qed.

Lemma last_code_option_decides_witness :
  ∃ e',
    ApplyOption rt_test (Some 0%nat) (build <$> (two_codes ++ [CallWithCode ""]))
      [sample]
    = Ok (Some 0%nat, <[0%nat := e']> [sample])
    ∧ Code e' = "E1".
Proof.
  apply (last_code_option_decides rt_test two_codes "" [sample] 0%nat sample).
  - reflexivity.
  - vm_compute. discriminate.
Defined.



(** ** Mutators *)

Lemma seq_modify {A} (b : option loc) f (k : M A) (h : heap) :
  (when true (modify b f) ;; k) h = (modify b f ;; k) h.
Proof. reflexivity. Qed.

(** X12. A single option with a non-zero value does to any pointer what
    the mutator of the same name does: same store, same pointer returned,
    same panic on nil.  This covers the code, message, formatted message,
    message-arguments, system, chain and cause options. *)
Theorem options_agree_with_mutators `{F : Fmt} rt b (h : heap)
    c m format fargs args labels ce :
  c ≠ "" → m ≠ "" → Sprintf format fargs ≠ "" → args ≠ [] → labels ≠ [] →
  ce ≠ nil_error →
  ApplyOption rt b [WithCode c] h = Error_WithCode b c h
  ∧ ApplyOption rt b [WithMsg m] h = Error_WithMsg b m h
  ∧ ApplyOption rt b [WithMsgFormat format fargs] h
    = Error_WithMsgFormat b format fargs h
  ∧ ApplyOption rt b [WithMsgArgs args] h = Error_WithMsgArgs b args h
  ∧ ApplyOption rt b [WithSystem] h = Error_WithSystem b h
  ∧ ApplyOption rt b [WithChain labels] h = Error_WithChain b labels h
  ∧ ApplyOption rt b [WithCause ce] h = Error_WithCause b ce h.
Proof.
  intros Hc Hm Hf Ha Hl Hce.
  apply String.eqb_neq in Hc, Hm, Hf.
  unfold ApplyOption, Error_WithCode, Error_WithMsg, Error_WithMsgFormat,
    Error_WithMsgArgs, Error_WithSystem, Error_WithChain, Error_WithCause.
  simpl. rewrite Hc, Hm, Hf. simpl.
  rewrite (bool_decide_eq_false_2 (ce = nil_error)) by done. simpl.
  destruct args as [|a args]; [done |]. destruct labels as [|x labels]; [done |].
  simpl. unfold mbind, M_bind.
  repeat split; unfold mret, M_ret; simpl;
    repeat match goal with
    | |- context [read b ?h0] => destruct (read b h0) as [[? ?]|?]; simpl
    | |- context [modify b ?f ?h0] =>
        destruct (modify b f h0) as [[[] ?]|?]; simpl
    end; done.
Qed.

Lemma options_agree_with_mutators_witness :
  ApplyOption rt_test (Some 0%nat) [@WithCode goFmt "E2"] [sample]
  = Error_WithCode (Some 0%nat) "E2" [sample]
  ∧ ApplyOption rt_test (Some 0%nat) [@WithMsg goFmt "disk"] [sample]
    = Error_WithMsg (Some 0%nat) "disk" [sample]
  ∧ ApplyOption rt_test (Some 0%nat) [@WithMsgFormat goFmt "n=%d" [VInt 4]] [sample]
    = Error_WithMsgFormat (F := goFmt) (Some 0%nat) "n=%d" [VInt 4] [sample]
  ∧ ApplyOption rt_test (Some 0%nat) [@WithMsgArgs goFmt [VInt 1]] [sample]
    = Error_WithMsgArgs (F := goFmt) (Some 0%nat) [VInt 1] [sample]
  ∧ ApplyOption rt_test (Some 0%nat) [@WithSystem goFmt] [sample]
    = Error_WithSystem (Some 0%nat) [sample]
  ∧ ApplyOption rt_test (Some 0%nat) [@WithChain goFmt ["db"]] [sample]
    = Error_WithChain (Some 0%nat) ["db"] [sample]
  ∧ ApplyOption rt_test (Some 0%nat) [@WithCause goFmt io_error] [sample]
    = Error_WithCause (Some 0%nat) io_error [sample].
Proof.
  apply (options_agree_with_mutators (F := goFmt) rt_test (Some 0%nat) [sample]
           "E2" "disk" "n=%d" [VInt 4] [VInt 1] ["db"] io_error);
    discriminate.
Defined.

(** X13. On a nil receiver every mutator and every accessor panics, and so
    do the forms of [Format] that render; the [Clone] method alone returns
    nil. *)
Theorem nil_receiver `{F : Fmt} `{P : Printer} rt (h : heap) :
  (∀ c, Error_WithCode None c h = Panic NilDereference)
  ∧ (∀ m, Error_WithMsg None m h = Panic NilDereference)
  ∧ (∀ args, Error_WithMsgArgs None args h = Panic NilDereference)
  ∧ (∀ f args, Error_WithMsgFormat None f args h = Panic NilDereference)
  ∧ Error_WithSystem None h = Panic NilDereference
  ∧ (∀ labels, Error_WithChain None labels h = Panic NilDereference)
  ∧ (∀ c, Error_WithCause None c h = Panic NilDereference)
  ∧ (∀ ds, ∃ p, Error_WithStack rt None ds h = Panic p)
  ∧ Error_Error None h = Panic NilDereference
  ∧ Error_Stack None h = Panic NilDereference
  ∧ Error_Cause None h = Panic NilDereference
  ∧ Error_Unwrap None h = Panic NilDereference
  ∧ (∀ fuel plus,
       Error_Format fuel None plus "v" h = Some (Panic NilDereference)
       ∧ Error_Format fuel None plus "s" h = Some (Panic NilDereference)
       ∧ Error_Format fuel None plus "q" h = Some (Panic NilDereference))
  ∧ (∀ opts, Error_Clone rt None opts h = Ok (None, h)).
Proof.
  repeat split; try reflexivity.
  - intros ds. unfold Error_WithStack, mbind, M_bind, callers, throw.
    destruct (_ || _); simpl; eauto.
  - by destruct plus.
Qed.



Lemma run_mutator {B} (h : heap) l e f (k : M B) :
  h !! l = Some e →
  ((modify (Some l) f ;; mret (Some l)) ;; k) h = k (<[l := f e]> h).
Proof.
  intros Hl. erewrite bind_Ok; [reflexivity |].
  by erewrite bind_Ok by (by apply modify_live).
Qed.

Lemma run_mutator_cell {B} (h : heap) l e f (k : M B) :
  (l < List.length h)%nat →
  ((modify (Some l) f ;; mret (Some l)) ;; k) (<[l := e]> h)
  = k (<[l := f e]> h).
Proof.
  intros Hl. rewrite (run_mutator _ l e) by (by apply cell_lookup).
  by rewrite list_insert_insert_eq.
Qed.

(** X15. What a mutator stores, the accessors and the rendering give back:
    the cause through [Cause] and [Unwrap]; the code and message through
    [Error], whichever of the two was set first; the system flag through
    the predicate. *)
Theorem mutator_round_trips (h : heap) l e c m ce :
  h !! l = Some e →
  (Error_WithCause (Some l) ce ;; Error_Cause (Some l)) h
  = Ok (ce, <[l := set_cause ce e]> h)
  ∧ (Error_WithCause (Some l) ce ;; Error_Unwrap (Some l)) h
    = Ok (ce, <[l := set_cause ce e]> h)
  ∧ (Error_WithCode (Some l) c ;; Error_WithMsg (Some l) m ;;
     Error_Error (Some l)) h
    = Ok (if String.eqb c "" then m else "[" +:+ c +:+ "] " +:+ m,
          <[l := set_Msg m (set_Code c e)]> h)
  ∧ (Error_WithMsg (Some l) m ;; Error_WithCode (Some l) c ;;
     Error_Error (Some l)) h
    = Ok (if String.eqb c "" then m else "[" +:+ c +:+ "] " +:+ m,
          <[l := set_Msg m (set_Code c e)]> h)
  ∧ (Error_WithSystem (Some l) ;; IsSystemError (ptr_error (Some l))) h
    = Ok (true, <[l := set_System true e]> h).
Proof.
  intros Hl.
  assert (l < List.length h)%nat as Hlt by (by eapply lookup_lt_Some).
  unfold Error_WithCause, Error_WithCode, Error_WithMsg, Error_WithSystem.
  repeat split.
  - rewrite (run_mutator h l e) by done.
    unfold Error_Cause. by erewrite bind_Ok by (by apply read_live, cell_lookup).
  - rewrite (run_mutator h l e) by done.
    unfold Error_Unwrap. by erewrite bind_Ok by (by apply read_live, cell_lookup).
  - rewrite (run_mutator h l e) by done. rewrite run_mutator_cell by done.
    rewrite (Error_Error_live _ l (set_Msg m (set_Code c e)))
      by (by apply cell_lookup).
    unfold short_form. simpl. by destruct (String.eqb c "").
  - rewrite (run_mutator h l e) by done. rewrite run_mutator_cell by done.
    rewrite (Error_Error_live _ l (set_Code c (set_Msg m e)))
      by (by apply cell_lookup).
    unfold short_form. simpl. by destruct (String.eqb c "").
  - rewrite (run_mutator h l e) by done.
    unfold IsSystemError, mbind, M_bind. simpl.
    by rewrite cell_lookup by done.
Qed.

Lemma mutator_round_trips_witness :
  (Error_WithCause (Some 0%nat) nil_error ;; Error_Cause (Some 0%nat)) [sample]
  = Ok (nil_error, <[0%nat := set_cause nil_error sample]> [sample])
  ∧ (Error_WithCause (Some 0%nat) nil_error ;; Error_Unwrap (Some 0%nat)) [sample]
    = Ok (nil_error, <[0%nat := set_cause nil_error sample]> [sample])
  ∧ (Error_WithCode (Some 0%nat) "E5" ;; Error_WithMsg (Some 0%nat) "late" ;;
     Error_Error (Some 0%nat)) [sample]
    = Ok ("[E5] late", <[0%nat := set_Msg "late" (set_Code "E5" sample)]> [sample])
  ∧ (Error_WithMsg (Some 0%nat) "late" ;; Error_WithCode (Some 0%nat) "E5" ;;
     Error_Error (Some 0%nat)) [sample]
    = Ok ("[E5] late", <[0%nat := set_Msg "late" (set_Code "E5" sample)]> [sample])
  ∧ (Error_WithSystem (Some 0%nat) ;; IsSystemError (ptr_error (Some 0%nat)))
      [sample]
    = Ok (true, <[0%nat := set_System true sample]> [sample]).
Proof.
  apply (mutator_round_trips [sample] 0%nat sample "E5" "late" nil_error).
  reflexivity.
Defined.

(** X16. A clone is a value of its own as far as code, message, system flag
    and cause go: setting them on the clone leaves the source as it was,
    and setting them on the source leaves the clone as [Clone] returned
    it. *)
Theorem clone_is_independent `{F : Fmt} rt opts (h : heap) l src c m ce :
  h !! l = Some src →
  stack_request_ok rt (depth (apply_opts opts zeroErrorOption)) →
  ∃ e' h1 h2,
    Clone rt (Some l) opts h = Ok (Some (List.length h), h ++ [e'])
    ∧ (Error_WithCode (Some (List.length h)) c ;;
       Error_WithMsg (Some (List.length h)) m ;;
       Error_WithSystem (Some (List.length h)) ;;
       Error_WithCause (Some (List.length h)) ce) (h ++ [e'])
      = Ok (Some (List.length h), h1)
    ∧ h1 !! l = Some src
    ∧ (Error_WithCode (Some l) c ;; Error_WithMsg (Some l) m ;;
       Error_WithSystem (Some l) ;; Error_WithCause (Some l) ce) (h ++ [e'])
      = Ok (Some l, h2)
    ∧ h2 !! List.length h = Some e'.
Proof.
  intros Hl Hd.
  assert (l < List.length h)%nat as Hlt by (by eapply lookup_lt_Some).
  eexists _, _, _. split.
  { unfold Clone. erewrite bind_Ok by (by apply read_live).
    rewrite alloc_then. by apply ApplyOption_fresh. }
  set (e' := format_message _ _). set (H := h ++ [e']).
  assert (H !! List.length h = Some e') as Hnew by (by apply list_lookup_middle).
  assert (H !! l = Some src) as Hsrc by (by apply lookup_app_l_Some).
  assert (List.length h < List.length H)%nat as Hn
    by (unfold H; rewrite length_app; simpl; lia).
  assert (l < List.length H)%nat as Hl' by lia.
  unfold Error_WithCode, Error_WithMsg, Error_WithSystem, Error_WithCause.
  split; [| split; [| split]].
  - rewrite (run_mutator H _ e') by done. rewrite !run_mutator_cell by done.
    erewrite bind_Ok by (by apply modify_live, cell_lookup).
    rewrite list_insert_insert_eq. reflexivity.
  - rewrite list_lookup_insert_ne by lia. done.
  - rewrite (run_mutator H _ src) by done. rewrite !run_mutator_cell by done.
    erewrite bind_Ok by (by apply modify_live, cell_lookup).
    rewrite list_insert_insert_eq. reflexivity.
  - rewrite list_lookup_insert_ne by lia. done.
Qed.

Lemma clone_is_independent_witness :
  ∃ e' h1 h2,
    Clone rt_test (Some 0%nat) stack_then_args [sample]
    = Ok (Some 1%nat, [sample] ++ [e'])
    ∧ (Error_WithCode (Some 1%nat) "E2" ;; Error_WithMsg (Some 1%nat) "disk" ;;
       Error_WithSystem (Some 1%nat) ;;
       Error_WithCause (Some 1%nat) nil_error) ([sample] ++ [e'])
      = Ok (Some 1%nat, h1)
    ∧ h1 !! 0%nat = Some sample
    ∧ (Error_WithCode (Some 0%nat) "E2" ;; Error_WithMsg (Some 0%nat) "disk" ;;
       Error_WithSystem (Some 0%nat) ;;
       Error_WithCause (Some 0%nat) nil_error) ([sample] ++ [e'])
      = Ok (Some 0%nat, h2)
    ∧ h2 !! 1%nat = Some e'.
Proof.
  apply (clone_is_independent rt_test stack_then_args [sample] 0%nat sample
           "E2" "disk" nil_error).
  - reflexivity.
  - right. vm_compute. split; discriminate.
Defined.

(** ** More on constructors *)

Lemma built_as_body `{F : Fmt} rt c m sys ce opts (h : heap) :
  stack_request_ok rt (depth (apply_opts opts zeroErrorOption)) →
  built_as sys opts h
    ((e ← alloc (mkError c m sys [] ce None) ; ApplyOption rt e opts) h).
Proof.
  intros Hd. rewrite alloc_then, ApplyOption_fresh by done.
  set (acc := apply_opts opts zeroErrorOption).
  set (e' := format_message acc _).
  assert ((h ++ [e']) !! List.length h = Some e') as Hnew
    by (by apply list_lookup_middle).
  assert (System e' = sys || system acc) as Hsys
    by (unfold e'; by rewrite System_merged).
  exists e'. split; [done |]. split; [done |]. split; [done |].
  unfold IsSystemError, IsNotSystemError, mbind, M_bind. simpl.
  rewrite Hnew. simpl. by rewrite Hsys.
Qed.

(** X17. With a stack depth [make] grants, each of the four plain
    constructors returns a new live value that the structured-error
    predicate accepts.  [NewSystem] and [NewSystemCode] give a system fault
    whatever the options; [New] and [NewCode] give a system fault exactly
    when an option set the system flag, and a business fault otherwise. *)
Theorem plain_constructors_classify `{F : Fmt} rt c m opts (h : heap) :
  stack_request_ok rt (depth (apply_opts opts zeroErrorOption)) →
  built_as false opts h (New rt m opts h)
  ∧ built_as true opts h (NewSystem rt m opts h)
  ∧ built_as false opts h (NewCode rt c m opts h)
  ∧ built_as true opts h (NewSystemCode rt c m opts h).
Proof. intros Hd. repeat split; by apply built_as_body. Qed.

Lemma plain_constructors_classify_witness :
  built_as false args_then_template [sample]
    (New rt_test "raw" args_then_template [sample])
  ∧ built_as true args_then_template [sample]
      (NewSystem rt_test "raw" args_then_template [sample])
  ∧ built_as false args_then_template [sample]
      (NewCode rt_test "E4" "raw" args_then_template [sample])
  ∧ built_as true args_then_template [sample]
      (NewSystemCode rt_test "E4" "raw" args_then_template [sample]).
Proof.
  apply (plain_constructors_classify rt_test "E4" "raw" args_then_template
           [sample]).
  left. reflexivity.
Defined.

Lemma wrap_built_as `{F : Fmt} rt c sys err text opts (h : heap) :
  error_Error err h = Ok (text, h) →
  stack_request_ok rt (depth (apply_opts opts zeroErrorOption)) →
  built_as sys opts h
    ((if bool_decide (err = nil_error) then mret None
      else m ← error_Error err ;
           e ← alloc (mkError c m sys [] err None) ;
           ApplyOption rt e opts) h).
Proof.
  intros Herr Hd.
  rewrite bool_decide_eq_false_2 by (by eapply error_Error_not_nil).
  erewrite bind_Ok by exact Herr. by apply built_as_body.
Qed.

(** X18. A wrapping constructor classifies its result by its own name and
    the options, never by the error it wraps: [NewWrap] and [NewCodeWrap]
    of a present error give a business fault unless an option set the
    system flag, also when the wrapped error is itself a system fault;
    [NewSystemWrap] and [NewSystemCodeWrap] always give a system fault. *)
Theorem wrap_constructors_classify `{F : Fmt} rt c err text opts (h : heap) :
  error_Error err h = Ok (text, h) →
  stack_request_ok rt (depth (apply_opts opts zeroErrorOption)) →
  built_as false opts h (NewWrap rt err opts h)
  ∧ built_as true opts h (NewSystemWrap rt err opts h)
  ∧ built_as false opts h (NewCodeWrap rt c err opts h)
  ∧ built_as true opts h (NewSystemCodeWrap rt c err opts h).
Proof. intros Herr Hd. repeat split; by eapply wrap_built_as. Qed.

Lemma wrap_constructors_classify_witness :
  built_as false template_only [sample]
    (NewWrap rt_test (ptr_error (Some 0%nat)) template_only [sample])
  ∧ built_as true template_only [sample]
      (NewSystemWrap rt_test (ptr_error (Some 0%nat)) template_only [sample])
  ∧ built_as false template_only [sample]
      (NewCodeWrap rt_test "E9" (ptr_error (Some 0%nat)) template_only [sample])
  ∧ built_as true template_only [sample]
      (NewSystemCodeWrap rt_test "E9" (ptr_error (Some 0%nat)) template_only
         [sample]).
Proof.
  apply (wrap_constructors_classify rt_test "E9" (ptr_error (Some 0%nat))
           "[E1] boom" template_only [sample]).
  - reflexivity.
  - left. reflexivity.
Defined.

(** Wrapping the system fault [sample] with [NewWrap] gives a business
    fault. *)
Example NewWrap_of_system_fault :
  (p ← NewWrap (F := goFmt) rt_test (ptr_error (Some 0%nat)) [] ;
   IsSystemError (ptr_error p)) [sample]
  = Ok (false,
        [sample; mkError "" "[E1] boom" false [] (ptr_error (Some 0%nat)) None]).
Proof. reflexivity. Qed.

(** X19. With options that set no cause, [Unwrap] and [Cause] of a wrapper
    give back the wrapped error; with options that set no code, message or
    arguments, the short form of a [NewWrap] wrapper is the wrapped error's
    text, and that of a [NewCodeWrap] wrapper is that text behind the
    bracketed code. *)
Theorem wrap_round_trip `{F : Fmt} rt c err text opts (h : heap) :
  error_Error err h = Ok (text, h) →
  stack_request_ok rt (depth (apply_opts opts zeroErrorOption)) →
  (ocause (apply_opts opts zeroErrorOption) = nil_error →
   ∃ h', (p ← NewWrap rt err opts ; Error_Unwrap p) h = Ok (err, h')
         ∧ (p ← NewWrap rt err opts ; Error_Cause p) h = Ok (err, h'))
  ∧ (code (apply_opts opts zeroErrorOption) = "" →
     msg (apply_opts opts zeroErrorOption) = "" →
     msgArgs (apply_opts opts zeroErrorOption) = [] →
     (∃ h', (p ← NewWrap rt err opts ; Error_Error p) h = Ok (text, h'))
     ∧ (∃ h', (p ← NewCodeWrap rt c err opts ; Error_Error p) h
              = Ok (if String.eqb c "" then text
                    else "[" +:+ c +:+ "] " +:+ text, h'))).
Proof.
  intros Herr Hd. set (acc := apply_opts opts zeroErrorOption) in *.
  assert (∀ c0 sys,
            (if bool_decide (err = nil_error) then mret None
             else m ← error_Error err ;
                  e ← alloc (mkError c0 m sys [] err None) ;
                  ApplyOption rt e opts) h
            = Ok (Some (List.length h),
                  h ++ [format_message acc
                          (merge_fields rt acc (mkError c0 text sys [] err None))]))
    as Hwrap.
  { intros c0 sys.
    rewrite bool_decide_eq_false_2 by (by eapply error_Error_not_nil).
    erewrite bind_Ok by exact Herr. rewrite alloc_then.
    by apply ApplyOption_fresh. }
  split.
  - intros Hc. eexists. unfold NewWrap, Error_Unwrap, Error_Cause.
    split.
    + erewrite bind_Ok by apply Hwrap.
      erewrite bind_Ok by (by apply read_live, list_lookup_middle).
      unfold mret, M_ret. by rewrite cause_merged, Hc.
    + erewrite bind_Ok by apply Hwrap.
      erewrite bind_Ok by (by apply read_live, list_lookup_middle).
      unfold mret, M_ret. by rewrite cause_merged, Hc.
  - intros Hcode Hmsg Hargs. split; eexists.
    + unfold NewWrap. erewrite bind_Ok by apply Hwrap.
      rewrite (Error_Error_live _ (List.length h) _ (list_lookup_middle _ _ _ _ eq_refl)).
      unfold short_form. by rewrite Code_merged, Msg_merged, Hcode, Hmsg, Hargs.
    + unfold NewCodeWrap. erewrite bind_Ok by apply Hwrap.
      rewrite (Error_Error_live _ (List.length h) _ (list_lookup_middle _ _ _ _ eq_refl)).
      unfold short_form. rewrite Code_merged, Msg_merged, Hcode, Hmsg, Hargs.
      simpl. by destruct (String.eqb c "").
Qed.

Lemma wrap_round_trip_witness :
  (nil_error = nil_error →
   ∃ h', (p ← NewWrap (F := goFmt) rt_test (ptr_error (Some 0%nat)) [] ;
          Error_Unwrap p) [sample]
         = Ok (ptr_error (Some 0%nat), h')
         ∧ (p ← NewWrap (F := goFmt) rt_test (ptr_error (Some 0%nat)) [] ;
            Error_Cause p) [sample]
           = Ok (ptr_error (Some 0%nat), h'))
  ∧ ("" = "" → "" = "" → ([] : list goval) = [] →
     (∃ h', (p ← NewWrap (F := goFmt) rt_test (ptr_error (Some 0%nat)) [] ;
             Error_Error p) [sample]
            = Ok ("[E1] boom", h'))
     ∧ (∃ h', (p ← NewCodeWrap (F := goFmt) rt_test "E9"
                      (ptr_error (Some 0%nat)) [] ;
               Error_Error p) [sample]
              = Ok ("[E9] [E1] boom", h'))).
Proof.
  apply (wrap_round_trip (F := goFmt) rt_test "E9" (ptr_error (Some 0%nat))
           "[E1] boom" [] [sample]).
  - reflexivity.
  - left. reflexivity.
Defined.

(** X20. A nil pointer of this package's type inside a non-nil [error],
    which is what the nil result of [Clone] or of a wrapping constructor
    becomes when stored in an [error], is not taken for an absent error:
    every wrapping constructor calls its [Error] method and panics. *)
Theorem wrap_of_typed_nil_panics `{F : Fmt} rt c opts (h : heap) :
  NewWrap rt (ptr_error None) opts h = Panic NilDereference
  ∧ NewSystemWrap rt (ptr_error None) opts h = Panic NilDereference
  ∧ NewCodeWrap rt c (ptr_error None) opts h = Panic NilDereference
  ∧ NewSystemCodeWrap rt c (ptr_error None) opts h = Panic NilDereference
  ∧ (p ← Clone rt None opts ; NewWrap rt (ptr_error p) opts) h
    = Panic NilDereference.
Proof. repeat split. Qed.

(** ** Operations that only read *)

(** X21. The rendering, the accessors, the three predicates and [callers]
    never change the store: when they return, every value is as it was. *)
Theorem readers_leave_the_store rt (h : heap) :
  (∀ b r h', Error_Error b h = Ok (r, h') → h' = h)
  ∧ (∀ b r h', Error_Stack b h = Ok (r, h') → h' = h)
  ∧ (∀ b r h', Error_Cause b h = Ok (r, h') → h' = h)
  ∧ (∀ b r h', Error_Unwrap b h = Ok (r, h') → h' = h)
  ∧ (∀ err r h', error_Error err h = Ok (r, h') → h' = h)
  ∧ (∀ err r h', IsBaseError err h = Ok (r, h') → h' = h)
  ∧ (∀ err r h', IsSystemError err h = Ok (r, h') → h' = h)
  ∧ (∀ err r h', IsNotSystemError err h = Ok (r, h') → h' = h)
  ∧ (∀ skip d r h', callers rt skip d h = Ok (r, h') → h' = h).
Proof.
  assert (∀ b e h', read b h = Ok (e, h') → h' = h) as Hread.
  { intros [l|] e h' Hr; unfold read in Hr; [| discriminate].
    destruct (h !! l); [| discriminate]. by simplify_eq. }
  assert (∀ b r h', Error_Error b h = Ok (r, h') → h' = h) as Hshort.
  { intros b r h' Hr. unfold Error_Error in Hr.
    apply bind_inv in Hr as (e & h1 & Hr1 & Hr2). apply Hread in Hr1. subst h1.
    destruct (negb _); unfold mret, M_ret in Hr2; by simplify_eq. }
  assert (∀ err t h', TypeOf_String err h = Ok (t, h') → h' = h) as Htype.
  { intros [|p|ty tx] t h' Hr; simpl in Hr;
      unfold throw, mret, M_ret in Hr; by simplify_eq. }
  assert (∀ err p h', assert_Error err h = Ok (p, h') → h' = h) as Hassert.
  { intros [|p|ty tx] q h' Hr; simpl in Hr;
      unfold throw, mret, M_ret in Hr; by simplify_eq. }
  split; [exact Hshort |].
  split.
  { intros b r h' Hr. unfold Error_Stack in Hr.
    apply bind_inv in Hr as (e & h1 & Hr1 & Hr2). apply Hread in Hr1.
    unfold mret, M_ret in Hr2. by simplify_eq. }
  split.
  { intros b r h' Hr. unfold Error_Cause in Hr.
    apply bind_inv in Hr as (e & h1 & Hr1 & Hr2). apply Hread in Hr1.
    unfold mret, M_ret in Hr2. by simplify_eq. }
  split.
  { intros b r h' Hr. unfold Error_Unwrap in Hr.
    apply bind_inv in Hr as (e & h1 & Hr1 & Hr2). apply Hread in Hr1.
    unfold mret, M_ret in Hr2. by simplify_eq. }
  split.
  { intros [|p|ty tx] r h' Hr; simpl in Hr.
    - discriminate.
    - by eapply Hshort.
    - unfold mret, M_ret in Hr. by simplify_eq. }
  split.
  { intros err r h' Hr. unfold IsBaseError in Hr.
    apply bind_inv in Hr as (t & h1 & Hr1 & Hr2). apply Htype in Hr1.
    unfold mret, M_ret in Hr2. by simplify_eq. }
  split.
  { intros err r h' Hr. unfold IsSystemError in Hr.
    apply bind_inv in Hr as (t & h1 & Hr1 & Hr2). apply Htype in Hr1. subst h1.
    destruct (String.eqb t _); [| unfold mret, M_ret in Hr2; by simplify_eq].
    apply bind_inv in Hr2 as (p & h2 & Hr2 & Hr3). apply Hassert in Hr2. subst h2.
    apply bind_inv in Hr3 as (e & h3 & Hr3 & Hr4). apply Hread in Hr3.
    unfold mret, M_ret in Hr4. by simplify_eq. }
  split.
  { intros err r h' Hr. unfold IsNotSystemError in Hr.
    apply bind_inv in Hr as (t & h1 & Hr1 & Hr2). apply Htype in Hr1. subst h1.
    destruct (String.eqb t _); [| unfold mret, M_ret in Hr2; by simplify_eq].
    apply bind_inv in Hr2 as (p & h2 & Hr2 & Hr3). apply Hassert in Hr2. subst h2.
    apply bind_inv in Hr3 as (e & h3 & Hr3 & Hr4). apply Hread in Hr3.
    unfold mret, M_ret in Hr4. by simplify_eq. }
  intros skip d r h' Hr. unfold callers in Hr.
  destruct (_ || _); unfold throw, mret, M_ret in Hr; by simplify_eq.
Qed.

(** ** The earlier revision *)

Section legacy_facts.
Context `{F : Fmt}.

Lemma legacy_bind_Ok {A B} (m : Legacy.M A) (k : A → Legacy.M B) h a h' :
  m h = Ok (a, h') → (m ≫= k) h = k a h'.
Proof. intros Hm. unfold mbind, Legacy.M_bind. by rewrite Hm. Qed.

Lemma legacy_modify_cell (h : list Legacy.Error) l e f :
  (l < List.length h)%nat →
  Legacy.modify (Some l) f (<[l := e]> h) = Ok ((), <[l := f e]> h).
Proof.
  intros Hl. unfold Legacy.modify.
  rewrite list_lookup_insert_eq by done. by rewrite list_insert_insert_eq.
Qed.

Lemma legacy_read_cell (h : list Legacy.Error) l e :
  (l < List.length h)%nat →
  Legacy.read (Some l) (<[l := e]> h) = Ok (e, <[l := e]> h).
Proof.
  intros Hl. unfold Legacy.read. by rewrite list_lookup_insert_eq by done.
Qed.

Lemma legacy_step_assign {B} (h : list Legacy.Error) l e c f (k : Legacy.M B) :
  (l < List.length h)%nat →
  (Legacy.when c (Legacy.modify (Some l) f) ;; k) (<[l := e]> h)
  = k (<[l := if c then f e else e]> h).
Proof.
  intros Hl. destruct c; simpl.
  - by erewrite legacy_bind_Ok by (by apply legacy_modify_cell).
  - by erewrite legacy_bind_Ok.
Qed.

Lemma legacy_step_update {B} (h : list Legacy.Error) l e c
    (g : Legacy.Error → Legacy.Error → Legacy.Error) (k : Legacy.M B) :
  (l < List.length h)%nat →
  (Legacy.when c (x ← Legacy.read (Some l) ; Legacy.modify (Some l) (g x)) ;; k)
    (<[l := e]> h)
  = k (<[l := if c then g e e else e]> h).
Proof.
  intros Hl. destruct c; simpl.
  - erewrite legacy_bind_Ok; [reflexivity |].
    erewrite legacy_bind_Ok by (by apply legacy_read_cell).
    by apply legacy_modify_cell.
  - by erewrite legacy_bind_Ok.
Qed.

Lemma legacy_callers_granted rt skip d (h : list Legacy.Error) :
  0 ≤ d → d ≤ maxSliceLen rt →
  Legacy.callers rt skip d h = Ok (Some (capture rt skip d), h).
Proof.
  intros H0 Hmax. unfold Legacy.callers. by rewrite callers_granted.
Qed.

Lemma legacy_step_capture {B} rt (h : list Legacy.Error) l e c d
    (k : Legacy.M B) :
  (l < List.length h)%nat →
  (c = true → 0 ≤ d ∧ d ≤ maxSliceLen rt) →
  (Legacy.when c (st ← Legacy.callers rt 3 d ;
                  Legacy.modify (Some l) (Legacy.set_stack st)) ;; k)
    (<[l := e]> h)
  = k (<[l := if c then Legacy.set_stack (Some (capture rt 3 d)) e else e]> h).
Proof.
  intros Hl Hd. destruct c; simpl.
  - destruct Hd as [H0 Hmax]; [done |].
    erewrite legacy_bind_Ok; [reflexivity |].
    erewrite legacy_bind_Ok by (by apply legacy_callers_granted).
    by apply legacy_modify_cell.
  - by erewrite legacy_bind_Ok.
Qed.

Lemma legacy_merge_zero rt e :
  Legacy.merge rt Legacy.zeroErrorOption e = e.
Proof. by destruct e. Qed.

(** The earlier [ApplyOption] on a live pointer, in closed form. *)
Lemma legacy_ApplyOption_cell rt opts (h : list Legacy.Error) l e :
  h !! l = Some e →
  stack_request_ok rt
    (Legacy.stackDepth (Legacy.apply_opts opts Legacy.zeroErrorOption)) →
  Legacy.ApplyOption rt (Some l) opts h
  = Ok (Some l,
        <[l := Legacy.merge rt
                 (Legacy.apply_opts opts Legacy.zeroErrorOption) e]> h).
Proof.
  intros Hl Hd.
  assert (l < List.length h)%nat as Hlt by (by eapply lookup_lt_Some).
  unfold Legacy.ApplyOption. destruct opts as [|o opts].
  { simpl. rewrite legacy_merge_zero. by rewrite list_insert_id. }
  change (List.length (o :: opts) =? 0)%nat with false. cbv iota.
  set (acc := Legacy.apply_opts (o :: opts) Legacy.zeroErrorOption) in *.
  rewrite <- (list_insert_id h l e Hl) at 1.
  rewrite legacy_step_assign by done.
  rewrite legacy_step_assign by done.
  rewrite legacy_step_assign by done.
  rewrite legacy_step_capture; [| done |].
  2:{ intros Hne. destruct Hd as [Hz | Hd]; [| done].
      rewrite Hz in Hne. discriminate. }
  rewrite (legacy_step_update h l _ _
             (λ x, Legacy.set_Msg (Sprintf (Legacy.Msg x) (Legacy.formatArgs acc))))
    by done.
  reflexivity.
Qed.

Lemma legacy_ApplyOption_fresh rt opts (h : list Legacy.Error) e0 :
  stack_request_ok rt
    (Legacy.stackDepth (Legacy.apply_opts opts Legacy.zeroErrorOption)) →
  Legacy.ApplyOption rt (Some (List.length h)) opts (h ++ [e0])
  = Ok (Some (List.length h),
        h ++ [Legacy.merge rt
                (Legacy.apply_opts opts Legacy.zeroErrorOption) e0]).
Proof.
  intros Hd.
  rewrite (legacy_ApplyOption_cell rt opts (h ++ [e0]) (List.length h) e0);
    [| by apply list_lookup_middle | done].
  rewrite insert_app_r_alt by done. by rewrite Nat.sub_diag.
Qed.

Lemma legacy_merge_fields rt acc e :
  Legacy.Code (Legacy.merge rt acc e) = Legacy.Code e
  ∧ Legacy.System (Legacy.merge rt acc e) = Legacy.System e || Legacy.system acc
  ∧ Legacy.Chain (Legacy.merge rt acc e)
    = (if bool_decide (Legacy.chain acc = []) then Legacy.Chain e
       else Legacy.Join (Legacy.chain acc) "<-")
  ∧ Legacy.cause (Legacy.merge rt acc e)
    = (if bool_decide (Legacy.ocause acc = nil_error) then Legacy.cause e
       else Legacy.ocause acc)
  ∧ (Legacy.formatArgs acc = [] → Legacy.Msg (Legacy.merge rt acc e) = Legacy.Msg e).
Proof.
  unfold Legacy.merge.
  destruct (Legacy.system acc), (Legacy.chain acc) as [|x xs],
    (bool_decide (Legacy.ocause acc = nil_error)),
    (Legacy.stackDepth acc =? 0), (Legacy.formatArgs acc) as [|a args];
    simpl; repeat split; try done; by destruct (Legacy.System e).
Qed.

End legacy_facts.

(** X22. The earlier revision's [Init] reads its argument without a test
    for nil, so it panics on a nil pointer where [Clone] returns nil.  On a
    live value it carries over the code, the message and the system flag
    only: the new value's chain and cause are those of the options, empty
    and nil without any, and not the source's. *)
Theorem legacy_Init_drops_chain_and_cause `{F : Fmt} rt opts
    (h : list Legacy.Error) l src :
  h !! l = Some src →
  stack_request_ok rt
    (Legacy.stackDepth (Legacy.apply_opts opts Legacy.zeroErrorOption)) →
  (∀ opts' h', Legacy.Init rt None opts' h' = Panic NilDereference)
  ∧ ∃ e',
      Legacy.Init rt (Some l) opts h = Ok (Some (List.length h), h ++ [e'])
      ∧ Legacy.Code e' = Legacy.Code src
      ∧ Legacy.System e'
        = Legacy.System src
          || Legacy.system (Legacy.apply_opts opts Legacy.zeroErrorOption)
      ∧ Legacy.Chain e'
        = Legacy.Join
            (Legacy.chain (Legacy.apply_opts opts Legacy.zeroErrorOption)) "<-"
      ∧ Legacy.cause e'
        = Legacy.ocause (Legacy.apply_opts opts Legacy.zeroErrorOption)
      ∧ (Legacy.formatArgs (Legacy.apply_opts opts Legacy.zeroErrorOption) = [] →
         Legacy.Msg e' = Legacy.Msg src).
Proof.
  intros Hl Hd. split; [done |].
  set (acc := Legacy.apply_opts opts Legacy.zeroErrorOption) in *.
  eexists. split.
  { unfold Legacy.Init.
    erewrite legacy_bind_Ok; last first.
    { unfold Legacy.read. by rewrite Hl. }
    erewrite legacy_bind_Ok by reflexivity.
    by apply legacy_ApplyOption_fresh. }
  fold acc.
  destruct (legacy_merge_fields rt acc
              (Legacy.mkError (Legacy.Code src) (Legacy.Msg src)
                 (Legacy.System src) "" nil_error None))
    as (Hcode & Hsys & Hchain & Hcause & Hmsg).
  split; [exact Hcode |]. split; [exact Hsys |].
  split.
  { rewrite Hchain. destruct (decide (Legacy.chain acc = [])) as [Hc | Hc].
    - rewrite bool_decide_eq_true_2 by done. by rewrite Hc.
    - by rewrite bool_decide_eq_false_2 by done. }
  split.
  { rewrite Hcause.
    destruct (decide (Legacy.ocause acc = nil_error)) as [Hc | Hc].
    - rewrite bool_decide_eq_true_2 by done. by rewrite Hc.
    - by rewrite bool_decide_eq_false_2 by done. }
  exact Hmsg.
Qed.

Lemma legacy_Init_drops_chain_and_cause_witness :
  (∀ opts' h', Legacy.Init (F := goFmt) rt_test None opts' h'
               = Panic NilDereference)
  ∧ ∃ e',
      Legacy.Init (F := goFmt) rt_test (Some 0%nat) [] [Legacy.old_sample]
      = Ok (Some 1%nat, [Legacy.old_sample] ++ [e'])
      ∧ Legacy.Code e' = "E1"
      ∧ Legacy.System e' = true || false
      ∧ Legacy.Chain e' = ""
      ∧ Legacy.cause e' = nil_error
      ∧ (([] : list goval) = [] → Legacy.Msg e' = "boom").
Proof.
  apply (legacy_Init_drops_chain_and_cause (F := goFmt) rt_test []
           [Legacy.old_sample] 0%nat Legacy.old_sample).
  - reflexivity.
  - left. reflexivity.
Defined.

(** X23. In the earlier revision chain options do not add up: the last one
    of the list replaces the chain of the value with its labels joined by
    [<-], discarding earlier chain options and the chain the value had, and
    one without labels leaves the chain alone.  The [WithChain] method
    replaces too, and without labels it empties the chain.  No option
    changes the code. *)
Theorem legacy_chain_option_replaces `{F : Fmt} rt opts labels
    (h : list Legacy.Error) l e :
  h !! l = Some e →
  stack_request_ok rt
    (Legacy.stackDepth (Legacy.apply_opts opts Legacy.zeroErrorOption)) →
  (∃ e',
     Legacy.ApplyOption rt (Some l) (opts ++ [Legacy.WithChain labels]) h
     = Ok (Some l, <[l := e']> h)
     ∧ Legacy.Chain e'
       = (if bool_decide (labels = []) then Legacy.Chain e
          else Legacy.Join labels "<-")
     ∧ Legacy.Code e' = Legacy.Code e)
  ∧ Legacy.Error_WithChain (Some l) labels h
    = Ok (Some l, <[l := Legacy.set_Chain (Legacy.Join labels "<-") e]> h)
  ∧ Legacy.Error_WithChain (Some l) [] h
    = Ok (Some l, <[l := Legacy.set_Chain "" e]> h).
Proof.
  intros Hl Hd.
  assert (Legacy.apply_opts (opts ++ [Legacy.WithChain labels])
            Legacy.zeroErrorOption
          = Legacy.run_option (Legacy.WithChain labels)
              (Legacy.apply_opts opts Legacy.zeroErrorOption)) as Hacc
    by (unfold Legacy.apply_opts; by rewrite foldl_app).
  split; [| split].
  - eexists. split.
    + apply legacy_ApplyOption_cell; [done |]. by rewrite Hacc.
    + rewrite Hacc.
      destruct (legacy_merge_fields rt
                  (Legacy.run_option (Legacy.WithChain labels)
                     (Legacy.apply_opts opts Legacy.zeroErrorOption)) e)
        as (Hcode & _ & Hchain & _).
      split; [exact Hchain | exact Hcode].
  - unfold Legacy.Error_WithChain.
    erewrite legacy_bind_Ok; [reflexivity |].
    unfold Legacy.modify. by rewrite Hl.
  - unfold Legacy.Error_WithChain.
    erewrite legacy_bind_Ok; [reflexivity |].
    unfold Legacy.modify. by rewrite Hl.
Qed.

Lemma legacy_chain_option_replaces_witness :
  (∃ e',
     Legacy.ApplyOption rt_test (Some 0%nat)
       ([@Legacy.WithChain goFmt ["a"; "b"]] ++ [@Legacy.WithChain goFmt ["x"; "y"]])
       [Legacy.old_sample]
     = Ok (Some 0%nat, <[0%nat := e']> [Legacy.old_sample])
     ∧ Legacy.Chain e' = "x<-y"
     ∧ Legacy.Code e' = "E1")
  ∧ Legacy.Error_WithChain (Some 0%nat) ["x"; "y"] [Legacy.old_sample]
    = Ok (Some 0%nat,
          <[0%nat := Legacy.set_Chain "x<-y" Legacy.old_sample]> [Legacy.old_sample])
  ∧ Legacy.Error_WithChain (Some 0%nat) [] [Legacy.old_sample]
    = Ok (Some 0%nat,
          <[0%nat := Legacy.set_Chain "" Legacy.old_sample]> [Legacy.old_sample]).
Proof.
  apply (legacy_chain_option_replaces (F := goFmt) rt_test
           [@Legacy.WithChain goFmt ["a"; "b"]] ["x"; "y"]
           [Legacy.old_sample] 0%nat Legacy.old_sample).
  - reflexivity.
  - left. reflexivity.
Defined.

(** X24. In the earlier revision a stack depth of zero or less given to
    [WithStackDepth] is taken as 1, so the snapshot has at most one entry,
    while [WithStack] asks for 3 and a positive depth is kept. *)
Theorem legacy_WithStackDepth_floor `{F : Fmt} rt d
    (h : list Legacy.Error) l e :
  d ≤ 0 →
  h !! l = Some e →
  1 ≤ maxSliceLen rt →
  Legacy.ApplyOption rt (Some l) [Legacy.WithStackDepth d] h
  = Ok (Some l, <[l := Legacy.set_stack (Some (capture rt 3 1)) e]> h)
  ∧ (List.length (capture rt 3 1) ≤ 1)%nat
  ∧ (∀ acc, Legacy.stackDepth (Legacy.run_option Legacy.WithStack acc) = 3)
  ∧ (∀ acc d', 0 < d' →
       Legacy.stackDepth (Legacy.run_option (Legacy.WithStackDepth d') acc) = d').
Proof.
  intros Hd Hl Hmax.
  assert ((d <=? 0) = true) as Hle by lia.
  split; [| split; [| split]].
  - rewrite (legacy_ApplyOption_cell rt _ h l e Hl).
    + unfold Legacy.merge. simpl. rewrite Hle. simpl. by destruct e.
    + simpl. rewrite Hle. right. lia.
  - unfold capture, runtime_Callers. rewrite length_take. lia.
  - done.
  - intros acc d' Hd'. simpl. by assert ((d' <=? 0) = false) as -> by lia.
Qed.

Lemma legacy_WithStackDepth_floor_witness :
  Legacy.ApplyOption rt_test (Some 0%nat) [@Legacy.WithStackDepth goFmt (-4)]
    [Legacy.old_sample]
  = Ok (Some 0%nat,
        <[0%nat := Legacy.set_stack (Some [1013]) Legacy.old_sample]>
          [Legacy.old_sample])
  ∧ (List.length (capture rt_test 3 1) ≤ 1)%nat
  ∧ (∀ acc, Legacy.stackDepth (Legacy.run_option (@Legacy.WithStack goFmt) acc) = 3)
  ∧ (∀ acc d', 0 < d' →
       Legacy.stackDepth
         (Legacy.run_option (@Legacy.WithStackDepth goFmt d') acc) = d').
Proof.
  apply (legacy_WithStackDepth_floor (F := goFmt) rt_test (-4)
           [Legacy.old_sample] 0%nat Legacy.old_sample).
  - lia.
  - reflexivity.
  - simpl. lia.
Defined.
